(** * The development chat coordinator (src/chat.py), the testing agent
      (src/agents/tester.py) and the debugging agent
      (src/agents/debugger.py), embedded as Rocq functions.

    Python dictionaries keyed by strings are [gmap string _]; the
    [project_state] dictionary, whose five keys are fixed, is a record.
    The language-model collaborators (planner, specialised agents) are not
    part of the sources: they are values of the record types [Planner] and
    [Agent], whose methods may answer differently on every call, may raise,
    and only read the dictionaries handed to them.  Calls are recorded in a
    [World], which is threaded through the code. *)

From Stdlib Require Import Ascii String.
From stdpp Require Import base gmap strings list fin_maps.

(** ** Values and exceptions *)

(** A Python value of type [Any]. *)
#[warnings="-register-all"]
Inductive Any : Type :=
| PyNone
| PyBool (b : bool)
| PyInt (n : Z)
| PyStr (s : string)
| PyList (l : list Any).

(** An instance of [Exception] raised by a collaborator: its class name and
    what [str(e)] returns for it. *)
Record PyException : Type := { exc_class : string; exc_str : string }.

(** What can escape from the coordinator's own code: the [KeyError] of a
    failed dictionary lookup, or a collaborator's exception that no handler
    caught. *)
Inductive Raised : Type :=
| KeyError (key : string)
| Propagated (e : PyException).

(** ** Data model of src/chat.py *)

(** [@dataclass class TaskResult] (chat.py, lines 13-19). *)
Record TaskResult : Type := mkTaskResult {
  success : bool;
  output : Any;
  message : string;
  next_steps : option (list string)
}.

(** The final response of an agent's message stream, read at lines 89-91. *)
Module Response.
Record t : Type := mk {
  output : Any;
  message : string;
  suggested_next_steps : option (list string)
}.
End Response.

(** One element of [plan_result.next_steps]: a dictionary with the keys
    ['agent'] and ['task'] (lines 132-133). *)
Module Step.
Record t : Type := mk { agent : string; task : string }.
End Step.

(** What [planner.plan_next_steps] returns (lines 126, 131, 156). *)
Module Plan.
Record result : Type := mk {
  is_complete : bool;
  next_steps : list Step.t;
  next_phase : string
}.
End Plan.

(** One dictionary appended to [project_state['history']] (lines 144-149). *)
Module Entry.
Record t : Type := mk {
  phase : string;
  agent : string;
  task : string;
  result : TaskResult
}.
End Entry.

(** The [project_state] dictionary (lines 111-117). *)
Record ProjectState : Type := mkState {
  status : string;
  current_phase : string;
  results : gmap string TaskResult;
  context : gmap string Any;
  history : list Entry.t
}.

(** One call of an agent's [execute_task] by the coordinator, with the
    [TaskResult] the coordinator made of it. *)
Module Invocation.
Record t : Type := mk {
  agent : string;
  task : string;
  result : TaskResult
}.
End Invocation.

(** ** Collaborators *)

(** The object returned by [agent.execute_task]; [get_final_response] is
    awaited at line 85. *)
Record Stream : Type := { get_final_response : PyException + Response.t }.

(** A specialised agent.  [execute_task task context log] is the call of
    lines 78-82; [log] lists the agent invocations made so far, so that an
    agent may answer differently each time it is called. *)
Record Agent : Type := {
  execute_task :
    string → gmap string Any → list Invocation.t → PyException + Stream
}.

(** The planning agent.  [plan_next_steps task current_state n] is the call
    of lines 121-124 when [n] planning calls were made before it. *)
Record Planner : Type := {
  plan_next_steps : string → ProjectState → nat → PyException + Plan.result;
  format_final_response : ProjectState → PyException + string
}.

(** The calls made so far, in call order: every planning call with the task
    and the state it was given, and every agent invocation. *)
Record World : Type := mkWorld {
  planning_log : list (string * ProjectState);
  invocation_log : list Invocation.t
}.

Definition new_world : World := mkWorld [] [].

Definition record_planning (task : string) (st : ProjectState) (w : World) : World :=
  mkWorld (planning_log w ++ [(task, st)]) (invocation_log w).

Definition record_invocation (agent_name task : string) (r : TaskResult)
    (w : World) : World :=
  mkWorld (planning_log w) (invocation_log w ++ [Invocation.mk agent_name task r]).

(** ** class DevelopmentChat *)

Record DevelopmentChat : Type := {
  planner : Planner;
  agent_pool : gmap string Agent
}.

(** [_initialize_agent_pool] (lines 48-55). *)
Definition _initialize_agent_pool (coder executor debugger tester : Agent)
  : gmap string Agent :=
  <["tester" := tester]>
    (<["debugger" := debugger]>
       (<["executor" := executor]> (<["coder" := coder]> ∅))).

(** [__init__] (lines 27-46); the system message it sets is not modelled. *)
Definition DevelopmentChat_init (p : Planner) (coder executor debugger tester : Agent)
  : DevelopmentChat :=
  {| planner := p;
     agent_pool := _initialize_agent_pool coder executor debugger tester |}.

(** The [TaskResult] built by the handler of lines 94-99. *)
Definition failed_result (agent_name : string) (e : PyException) : TaskResult :=
  mkTaskResult false PyNone
    ("Error during " +:+ agent_name +:+ " task execution: " +:+ exc_str e) None.

(** The [TaskResult] built at lines 87-92 from the final response. *)
Definition successful_result (result : Response.t) : TaskResult :=
  mkTaskResult true (Response.output result) (Response.message result)
    (Response.suggested_next_steps result).

(** [_execute_agent_task] (lines 57-99).  The lookup of line 74 stands before
    the [try]; everything from line 76 on is inside it.  Once the agent has
    been called, the invocation is recorded with the [TaskResult] returned. *)
Definition _execute_agent_task (self : DevelopmentChat)
    (agent_name task : string) (ctx : gmap string Any) (w : World)
  : World * (Raised + TaskResult) :=
  match agent_pool self !! agent_name with
  | None => (w, inl (KeyError agent_name))
  | Some agent =>
      let returning r := (record_invocation agent_name task r w, inr r) in
      match execute_task agent task ctx (invocation_log w) with
      | inl e => returning (failed_result agent_name e)
      | inr stream =>
          match get_final_response stream with
          | inl e => returning (failed_result agent_name e)
          | inr result => returning (successful_result result)
          end
      end
  end.

(** The fresh dictionary of lines 111-117. *)
Definition fresh_project_state : ProjectState :=
  mkState "in_progress" "planning" ∅ ∅ [].

(** [project_state['status'] = s] (line 127). *)
Definition set_status (s : string) (st : ProjectState) : ProjectState :=
  mkState s (current_phase st) (results st) (context st) (history st).

(** [project_state['current_phase'] = ph] (line 156). *)
Definition set_current_phase (ph : string) (st : ProjectState) : ProjectState :=
  mkState (status st) ph (results st) (context st) (history st).

(** The two updates of lines 143-149: the result is stored under the agent's
    name and a record is appended to the history. *)
Definition update_project_state (agent_name agent_task : string) (r : TaskResult)
    (st : ProjectState) : ProjectState :=
  mkState (status st) (current_phase st)
    (<[agent_name := r]> (results st))
    (context st)
    (history st ++ [Entry.mk (current_phase st) agent_name agent_task r]).

(** *** The [for] loop of lines 131-153, as a function of the steps left *)

Fixpoint execute_batch (self : DevelopmentChat) (steps : list Step.t)
    (st : ProjectState) (w : World) : World * (Raised + ProjectState) :=
  match steps with
  | [] => (w, inr st)
  | step :: rest =>
      let agent_name := Step.agent step in
      let agent_task := Step.task step in
      match _execute_agent_task self agent_name agent_task (context st) w with
      | (w', inl e) => (w', inl e)
      | (w', inr result) =>
          let st' := update_project_state agent_name agent_task result st in
          if success result then execute_batch self rest st' w'
          else (w', inr st')
      end
  end.

(** *** [_plan_and_execute] (lines 101-158) as a transition system *)

(** Where control stands inside [_plan_and_execute]. *)
Inductive Control : Type :=
| AtWhile                                             (* line 119 *)
| InFor (plan_result : Plan.result) (rest : list Step.t)  (* line 131 *)
| AfterFor (plan_result : Plan.result)                (* line 156 *)
| Returned                                            (* line 158 *)
| Crashed (e : Raised).                               (* an exception left the method *)

Record Config : Type := mkConfig {
  cfg_state : ProjectState;
  cfg_world : World;
  cfg_control : Control
}.

(** One transition; [None] once the method has returned or raised. *)
Definition step (self : DevelopmentChat) (task : string) (c : Config)
  : option Config :=
  let st := cfg_state c in
  let w := cfg_world c in
  match cfg_control c with
  | AtWhile =>
      if String.eqb (status st) "in_progress" then
        let w' := record_planning task st w in
        match plan_next_steps (planner self) task st (length (planning_log w)) with
        | inl e => Some (mkConfig st w' (Crashed (Propagated e)))
        | inr plan_result =>
            if Plan.is_complete plan_result
            then Some (mkConfig (set_status "completed" st) w' Returned)
            else Some (mkConfig st w' (InFor plan_result (Plan.next_steps plan_result)))
        end
      else Some (mkConfig st w Returned)
  | InFor plan_result [] => Some (mkConfig st w (AfterFor plan_result))
  | InFor plan_result (s :: rest) =>
      let agent_name := Step.agent s in
      let agent_task := Step.task s in
      match _execute_agent_task self agent_name agent_task (context st) w with
      | (w', inl e) => Some (mkConfig st w' (Crashed e))
      | (w', inr result) =>
          let st' := update_project_state agent_name agent_task result st in
          if success result
          then Some (mkConfig st' w' (InFor plan_result rest))
          else Some (mkConfig st' w' (AfterFor plan_result))
      end
  | AfterFor plan_result =>
      Some (mkConfig (set_current_phase (Plan.next_phase plan_result) st) w AtWhile)
  | Returned => None
  | Crashed _ => None
  end.

(** At most [fuel] transitions. *)
Fixpoint run (self : DevelopmentChat) (task : string) (fuel : nat) (c : Config)
  : Config :=
  match fuel with
  | O => c
  | S fuel' =>
      match step self task c with
      | None => c
      | Some c' => run self task fuel' c'
      end
  end.

(** The configuration in which [_plan_and_execute] starts. *)
Definition entry (w : World) : Config := mkConfig fresh_project_state w AtWhile.

(** The configurations the method passes through. *)
Inductive reachable (self : DevelopmentChat) (task : string) (w0 : World)
  : Config → Prop :=
| reachable_entry : reachable self task w0 (entry w0)
| reachable_step c c' :
    reachable self task w0 c → step self task c = Some c' →
    reachable self task w0 c'.

(** [_plan_and_execute task], given [fuel] transitions: the calls made by
    then, and the dictionary the method returns or the exception it raises;
    [None] when it has not finished within [fuel] transitions. *)
Definition _plan_and_execute (self : DevelopmentChat) (task : string)
    (fuel : nat) (w : World) : World * option (Raised + ProjectState) :=
  let c := run self task fuel (entry w) in
  match cfg_control c with
  | Returned => (cfg_world c, Some (inr (cfg_state c)))
  | Crashed e => (cfg_world c, Some (inl e))
  | _ => (cfg_world c, None)
  end.

(** One pass through the body of the [while] loop (lines 120-156), entered
    with [status = 'in_progress']. *)
Inductive IterationOutcome : Type :=
| Break (st : ProjectState)      (* line 128 *)
| Continue (st : ProjectState)   (* back to line 119 *)
| Raise (e : Raised).

Definition loop_iteration (self : DevelopmentChat) (task : string)
    (st : ProjectState) (w : World) : World * IterationOutcome :=
  let w1 := record_planning task st w in
  match plan_next_steps (planner self) task st (length (planning_log w)) with
  | inl e => (w1, Raise (Propagated e))
  | inr plan_result =>
      if Plan.is_complete plan_result
      then (w1, Break (set_status "completed" st))
      else
        match execute_batch self (Plan.next_steps plan_result) st w1 with
        | (w2, inl e) => (w2, Raise e)
        | (w2, inr st') =>
            (w2, Continue (set_current_phase (Plan.next_phase plan_result) st'))
        end
  end.

(** [process_single_task] (lines 188-199). *)
Definition process_single_task (self : DevelopmentChat) (task : string)
    (fuel : nat) (w : World) : World * option (Raised + ProjectState) :=
  _plan_and_execute self task fuel w.

(** *** [chat_loop] (lines 160-186) *)

(** [c.lower()] for a character of ASCII text. *)
Definition lower_char (c : ascii) : ascii :=
  let n := nat_of_ascii c in
  if (65 <=? n)%nat && (n <=? 90)%nat then ascii_of_nat (n + 32) else c.

(** [str.lower] on ASCII text; other bytes are left as they are (no character
    outside ASCII has a lower case among the letters of ['exit']). *)
Fixpoint lower (s : string) : string :=
  match s with
  | EmptyString => EmptyString
  | String c s' => String (lower_char c) (lower s')
  end.

Definition nl : string := String "010"%char EmptyString.

(** What the session writes to the console.  [PrintedError e] stands for the
    [print] of line 185, whose text is built from [str(e)]. *)
Inductive Event : Type :=
| Prompted (text : string)
| Printed (text : string)
| PrintedError (e : Raised).

(** How [chat_loop] was left. *)
Inductive Ending : Type :=
| SaidGoodbye        (* the [break] of line 170 *)
| InputExhausted     (* [input] raised at line 166, outside the [try] *)
| StillWorking.      (* a turn has not finished within its fuel *)

Definition prompt_event : Event := Prompted (nl +:+ "What would you like to develop? ").
Definition planning_event : Event := Printed (nl +:+ "Planning and executing your request...").

(** The two [print]s of the handler (lines 185-186). *)
Definition report_error (e : Raised) : list Event :=
  [PrintedError e; Printed "Please try again or type 'exit' to quit."].

(** The body of the [try] (lines 176-182), once [_plan_and_execute] has
    finished with [r]. *)
Definition present_outcome (self : DevelopmentChat) (r : Raised + ProjectState)
  : list Event :=
  match r with
  | inl e => report_error e
  | inr result =>
      match format_final_response (planner self) result with
      | inl e => report_error (Propagated e)
      | inr final_response => [Printed (nl +:+ "Results:"); Printed final_response]
      end
  end.

(** The [while True] loop, reading the lines of [inputs] one per turn; every
    turn's [_plan_and_execute] is given [fuel] transitions. *)
Fixpoint chat_turns (self : DevelopmentChat) (fuel : nat) (inputs : list string)
    (w : World) : list Event * World * Ending :=
  match inputs with
  | [] => ([prompt_event], w, InputExhausted)
  | user_input :: rest =>
      if String.eqb (lower user_input) "exit"
      then ([prompt_event; Printed "Goodbye!"], w, SaidGoodbye)
      else
        match _plan_and_execute self user_input fuel w with
        | (w', None) => ([prompt_event; planning_event], w', StillWorking)
        | (w', Some r) =>
            let '(events, w'', ending) := chat_turns self fuel rest w' in
            (prompt_event :: planning_event :: present_outcome self r ++ events,
             w'', ending)
        end
  end.

Definition chat_loop (self : DevelopmentChat) (fuel : nat) (inputs : list string)
    (w : World) : list Event * World * Ending :=
  let '(events, w', ending) := chat_turns self fuel inputs w in
  (Printed "Welcome to the Development Chat! Type 'exit' to quit." :: events,
   w', ending).

(** ** class TestingAgent (src/agents/tester.py) *)

Module Tester.

(** The dictionary returned by [_run_tests] and [execute_tests]. *)
Record TestResults : Type := mkResults {
  success : bool;
  errors : Any;
  message : string
}.

(** The instance, with the method [execute_tests] calls through [self]; a
    test double replaces it by a stub. *)
Record TestingAgent : Type := { run_tests_method : string → TestResults }.

(** [_run_tests] as the class defines it (lines 55-62). *)
Definition _run_tests (code : string) : TestResults :=
  mkResults true PyNone "All tests passed successfully.".

Definition TestingAgent_init : TestingAgent := {| run_tests_method := _run_tests |}.

(** [_coordinate_with_debugger] (lines 64-67): the body is [pass]; the call
    itself is recorded, with its argument, in the list of calls. *)
Definition _coordinate_with_debugger (errors : Any) (calls : list Any) : list Any :=
  calls ++ [errors].

(** [execute_tests] (lines 39-53): the hook calls made so far go in, the
    calls made by the end come out with the returned dictionary. *)
Definition execute_tests (self : TestingAgent) (code : string) (calls : list Any)
  : list Any * TestResults :=
  let test_results := run_tests_method self code in
  if negb (success test_results)
  then (_coordinate_with_debugger (errors test_results) calls, test_results)
  else (calls, test_results).

End Tester.

(** ** Test doubles *)

(** An agent whose stream always ends in the response [r]. *)
Definition answering (r : Response.t) : Agent :=
  {| execute_task := λ _ _ _, inr {| get_final_response := inr r |} |}.

(** An agent whose [execute_task] always raises [e]. *)
Definition raising (e : PyException) : Agent :=
  {| execute_task := λ _ _ _, inl e |}.

(** An agent whose stream raises [e] when its final response is awaited. *)
Definition breaking_stream (e : PyException) : Agent :=
  {| execute_task := λ _ _ _, inr {| get_final_response := inl e |} |}.

Definition code_response : Response.t :=
  Response.mk (PyStr "def add(a, b): return a + b") "implemented" None.

Definition run_response : Response.t :=
  Response.mk (PyInt 3) "executed" (Some ["write tests"]).

Definition timeout_error : PyException :=
  {| exc_class := "TimeoutError"; exc_str := "model call timed out" |}.

Definition finished : Plan.result := Plan.mk true [] "done".

Definition work (steps : list Step.t) (next_phase : string) : Plan.result :=
  Plan.mk false steps next_phase.

(** A planner that answers its [n]-th call (counting from 0) with the [n]-th
    plan of [script] and reports completion once the script is used up. *)
Definition scripted_planner (script : list Plan.result) : Planner :=
  {| plan_next_steps := λ _ _ n, inr (nth n script finished);
     format_final_response := λ st, inr (status st) |}.

(** A planner that hands out the same plan on every call. *)
Definition repeating_planner (plan_result : Plan.result) : Planner :=
  {| plan_next_steps := λ _ _ _, inr plan_result;
     format_final_response := λ st, inr (status st) |}.

(** A chat whose coder and executor answer, whose debugger raises and whose
    tester's stream breaks. *)
Definition stub_chat (p : Planner) : DevelopmentChat :=
  DevelopmentChat_init p
    (answering code_response) (answering run_response)
    (raising timeout_error) (breaking_stream timeout_error).

(** A chat whose planner asks an agent nobody registered, ["reviewer"], for
    its first step and reports completion on its second call. *)
Definition reviewer_chat : DevelopmentChat :=
  stub_chat (scripted_planner [work [Step.mk "reviewer" "review the code"] "review"]).

(** ** Vocabulary of the statements *)

(** The agent invocations made between the worlds [w] and [w']. *)
Definition invoked_since (w w' : World) : list Invocation.t :=
  drop (length (invocation_log w)) (invocation_log w').

(** The planning calls made between the worlds [w] and [w']. *)
Definition planned_since (w w' : World) : list (string * ProjectState) :=
  drop (length (planning_log w)) (planning_log w').

Definition called (inv : Invocation.t) : string * string :=
  (Invocation.agent inv, Invocation.task inv).

Definition requested (s : Step.t) : string * string :=
  (Step.agent s, Step.task s).

(** Line 143 for one invocation. *)
Definition store_result (m : gmap string TaskResult) (inv : Invocation.t)
  : gmap string TaskResult :=
  <[Invocation.agent inv := Invocation.result inv]> m.

(** The record of lines 144-149 for one invocation made in phase [ph]. *)
Definition history_record (ph : string) (inv : Invocation.t) : Entry.t :=
  Entry.mk ph (Invocation.agent inv) (Invocation.task inv) (Invocation.result inv).

(** The last invocation of the agent named [a] among [invs]. *)
Definition last_invocation_of (a : string) (invs : list Invocation.t)
  : option Invocation.t :=
  last (filter (λ inv, Invocation.agent inv = a) invs).

(** The names under which [_initialize_agent_pool] registers agents. *)
Definition pool_names : list string := ["coder"; "executor"; "debugger"; "tester"].

(** "An unknown agent name yields a failed [TaskResult]", as a property of a
    chat. *)
Definition unknown_agent_gives_failed_result (self : DevelopmentChat) : Prop :=
  ∀ agent_name task ctx w,
    agent_pool self !! agent_name = None →
    ∃ r, snd (_execute_agent_task self agent_name task ctx w) = inr r
         ∧ success r = false.

(** The two ways [_execute_agent_task] can end. *)
Inductive agent_task_outcome (self : DevelopmentChat) (agent_name task : string)
    (w : World) : World * (Raised + TaskResult) → Prop :=
| outcome_unknown :
    agent_pool self !! agent_name = None →
    agent_task_outcome self agent_name task w (w, inl (KeyError agent_name))
| outcome_result agent r :
    agent_pool self !! agent_name = Some agent →
    agent_task_outcome self agent_name task w
      (record_invocation agent_name task r w, inr r).

(** The status is ['completed'] exactly when the method has returned. *)
Definition status_matches_control (c : Config) : Prop :=
  match cfg_control c with
  | Returned => status (cfg_state c) = "completed"
  | _ => status (cfg_state c) = "in_progress"
  end.

(** The planner answers its calls number [first + 1 .. first + N] with plans,
    of which only the last is complete: it "reports completion on call [N]
    and not before", counting from the [first] calls made earlier. *)
Definition reports_completion_on_call (pl : Planner) (first N : nat) : Prop :=
  (1 ≤ N)%nat
  ∧ ∀ task st i, (i < N)%nat →
      ∃ p, plan_next_steps pl task st (first + i) = inr p
           ∧ Plan.is_complete p = bool_decide (S i = N).


(** "With a planner that reports completion on call [N], [_plan_and_execute]
    makes exactly [N] planning calls and returns", as a property of a chat. *)
Definition returns_after_N_planning_calls (self : DevelopmentChat) : Prop :=
  ∀ task w N,
    reports_completion_on_call (planner self) (length (planning_log w)) N →
    ∃ fuel w' st,
      _plan_and_execute self task fuel w = (w', Some (inr st))
      ∧ length (planned_since w w') = N.



(** A chat whose planner asks the coder for one step and reports completion
    on its second call. *)
Definition coder_chat : DevelopmentChat :=
  stub_chat (scripted_planner
               [work [Step.mk "coder" "write a function that adds two numbers"]
                  "testing"]).

(** The inputs that differ from ['exit'] by the case of their letters only. *)
Definition exit_spellings : list string :=
  ["exit"; "exiT"; "exIt"; "exIT"; "eXit"; "eXiT"; "eXIt"; "eXIT";
   "Exit"; "ExiT"; "ExIt"; "ExIT"; "EXit"; "EXiT"; "EXIt"; "EXIT"].

(** Case analysis on the eight bits of the character [c]. *)
Ltac by_cases_on_bits c :=
  destruct c as [[] [] [] [] [] [] [] []]; vm_compute; intros H;
  first [discriminate H | by left | by right].

(** A tester whose test run reports the failures [errs]. *)
Definition failing_tester (errs : Any) : Tester.TestingAgent :=
  {| Tester.run_tests_method := λ _, Tester.mkResults false errs "2 tests failed." |}.

(** An [errors] list as a failing test run would report it. *)
Definition add_failures : Any :=
  PyList [PyStr "test_add: expected 3, got -1"; PyStr "test_add_zero: TypeError"].

(** The state a batch ends in, when it ends without raising. *)
Definition batch_state (self : DevelopmentChat) (steps : list Step.t)
    (st : ProjectState) (w : World) : ProjectState :=
  match snd (execute_batch self steps st w) with
  | inr st' => st'
  | inl _ => st
  end.

(** A batch in which the coder is asked twice. *)
Definition revision_batch : list Step.t :=
  [Step.mk "coder" "write add"; Step.mk "executor" "run it";
   Step.mk "coder" "add a docstring"].

(** A state in which an earlier cycle left a failed result for the coder. *)
Definition state_after_failed_coder : ProjectState :=
  update_project_state "coder" "write add" (failed_result "coder" timeout_error)
    fresh_project_state.

(** A chat whose planner hands out a plan in which the debugger, which
    raises, comes before the executor. *)
Definition failing_plan : Plan.result :=
  work [Step.mk "debugger" "find the bug"; Step.mk "executor" "run it"] "debugging".

(** ** class DebuggingAgent (src/agents/debugger.py) *)

(** [sep.join(items)]. *)
Fixpoint join (sep : string) (items : list string) : string :=
  match items with
  | [] => ""
  | [item] => item
  | item :: rest => item +:+ sep +:+ join sep rest
  end.

(** The eight blanks that start the continuation lines of the prompts, which
    are triple-quoted literals inside indented method bodies. *)
Definition indent : string := "        ".

Module Debugger.

(** One dictionary of the [messages] list. *)
Record Message : Type := mkMessage { role : string; content : string }.

(** The model client: [complete(messages=...)] returns the model's response
    or raises. *)
Record ModelClient : Type := { complete : list Message → PyException + Any }.

Record DebuggingAgent : Type := { model_client : ModelClient }.

(** [system_prompt] of [analyze_error] (lines 32-37). *)
Definition analyze_error_system_prompt : string :=
  "You are an expert debugging agent. Analyze the provided error and stack trace "
  +:+ nl +:+ indent +:+ "to identify the root cause and suggest fixes. Focus on:"
  +:+ nl +:+ indent +:+ "1. Error type and location"
  +:+ nl +:+ indent +:+ "2. Potential causes"
  +:+ nl +:+ indent +:+ "3. Recommended fixes"
  +:+ nl +:+ indent +:+ "4. Prevention strategies".

(** [stack_trace if stack_trace else 'Not provided'] (line 40): [None] and
    the empty string are both false. *)
Definition stack_trace_text (stack_trace : option string) : string :=
  match stack_trace with
  | None => "Not provided"
  | Some "" => "Not provided"
  | Some trace => trace
  end.

(** [user_message] of [analyze_error] (lines 39-42). *)
Definition analyze_error_user_message (error_message : string)
    (stack_trace : option string) : string :=
  "Error Message: " +:+ error_message
  +:+ nl +:+ indent +:+ "Stack Trace: " +:+ stack_trace_text stack_trace
  +:+ nl +:+ indent
  +:+ nl +:+ indent +:+ "Please provide a structured analysis.".

(** [analyze_error] (lines 29-51). *)
Definition analyze_error (self : DebuggingAgent) (error_message : string)
    (stack_trace : option string) : PyException + Any :=
  let system_prompt := analyze_error_system_prompt in
  let user_message := analyze_error_user_message error_message stack_trace in
  complete (model_client self)
    [mkMessage "system" system_prompt; mkMessage "user" user_message].

(** [system_prompt] of [suggest_fixes] (lines 56-60). *)
Definition suggest_fixes_system_prompt : string :=
  "You are an expert code fixer. Review the code and reported issues"
  +:+ nl +:+ indent +:+ "to suggest specific fixes. Provide:"
  +:+ nl +:+ indent +:+ "1. Code modifications"
  +:+ nl +:+ indent +:+ "2. Explanation of changes"
  +:+ nl +:+ indent +:+ "3. Testing recommendations".

(** [user_message] of [suggest_fixes] (lines 62-65). *)
Definition suggest_fixes_user_message (code : string) (issues : list string)
  : string :=
  "Code: " +:+ code
  +:+ nl +:+ indent +:+ "Reported Issues: " +:+ join ", " issues
  +:+ nl +:+ indent
  +:+ nl +:+ indent +:+ "Please suggest fixes.".

(** [suggest_fixes] (lines 53-75). *)
Definition suggest_fixes (self : DebuggingAgent) (code : string)
    (issues : list string) : PyException + Any :=
  let system_prompt := suggest_fixes_system_prompt in
  let user_message := suggest_fixes_user_message code issues in
  complete (model_client self)
    [mkMessage "system" system_prompt; mkMessage "user" user_message].

End Debugger.

(** A model client that answers with the text of the last message it was
    sent. *)
Definition echo_client : Debugger.ModelClient :=
  {| Debugger.complete := λ messages,
       match last messages with
       | Some m => inr (PyStr (Debugger.content m))
       | None => inr PyNone
       end |}.

(** ** Vocabulary of the further properties *)

(** The invocation a history record stands for. *)
Definition entry_invocation (e : Entry.t) : Invocation.t :=
  Invocation.mk (Entry.agent e) (Entry.task e) (Entry.result e).

(** The last history record of the agent named [a]. *)
Definition last_record_of (a : string) (h : list Entry.t) : option Entry.t :=
  last (filter (λ e, Entry.agent e = a) h).

(** What the state and the call log of a configuration have to do with each
    other, for a method entered in the world [w0]. *)
Record bookkeeping (self : DevelopmentChat) (w0 : World) (c : Config) : Prop := {
  history_is_log :
    invocation_log (cfg_world c)
    = invocation_log w0 ++ (entry_invocation <$> history (cfg_state c));
  results_from_history :
    ∀ a, results (cfg_state c) !! a
         = Entry.result <$> last_record_of a (history (cfg_state c));
  history_within_pool :
    ∀ e, e ∈ history (cfg_state c) → is_Some (agent_pool self !! Entry.agent e)
}.

(** The planning calls [calls] were all made for [task], with a state in
    progress. *)
Definition planned_for (task : string) (calls : list (string * ProjectState))
  : Prop :=
  ∀ t s, (t, s) ∈ calls → t = task ∧ status s = "in_progress".

(** Where an exception that left [_plan_and_execute] in the world [w] came
    from. *)
Definition explained (self : DevelopmentChat) (task : string) (w : World)
    (ex : Raised) : Prop :=
  match ex with
  | KeyError key => agent_pool self !! key = None
  | Propagated e =>
      ∃ s, last (planning_log w) = Some (task, s)
           ∧ plan_next_steps (planner self) task s (length (planning_log w) - 1)
             = inl e
  end.

(** The lines the session has asked for. *)
Definition is_prompt (ev : Event) : bool :=
  match ev with
  | Prompted _ => true
  | _ => false
  end.

(** Consecutive planning calls: the call before was answered with a plan
    that was not complete, and the state of the call after is in the phase
    that plan named; the first call is made in the phase ['planning']. *)
Definition phases_follow_plans (pl : Planner) (first : nat)
    (calls : list (string * ProjectState)) : Prop :=
  (∀ t s, calls !! 0 = Some (t, s) → current_phase s = "planning")
  ∧ ∀ i t s t' s',
      calls !! i = Some (t, s) → calls !! S i = Some (t', s') →
      ∃ p, plan_next_steps pl t s (first + i) = inr p
           ∧ Plan.is_complete p = false
           ∧ current_phase s' = Plan.next_phase p.

(** The last of the planning calls [calls] was answered with the plan [p],
    which was not complete. *)
Definition last_plan_is (pl : Planner) (first : nat)
    (calls : list (string * ProjectState)) (p : Plan.result) : Prop :=
  ∃ t s, last calls = Some (t, s)
         ∧ plan_next_steps pl t s (first + (length calls - 1)) = inr p
         ∧ Plan.is_complete p = false.

Definition phase_invariant (self : DevelopmentChat) (w0 : World) (c : Config)
  : Prop :=
  ∃ calls,
    planning_log (cfg_world c) = planning_log w0 ++ calls
    ∧ phases_follow_plans (planner self) (length (planning_log w0)) calls
    ∧ match cfg_control c with
      | AtWhile =>
          (calls = [] ∧ current_phase (cfg_state c) = "planning")
          ∨ ∃ p, last_plan_is (planner self) (length (planning_log w0)) calls p
                 ∧ current_phase (cfg_state c) = Plan.next_phase p
      | InFor p _ | AfterFor p =>
          last_plan_is (planner self) (length (planning_log w0)) calls p
      | Returned | Crashed _ => True
      end.



(** A planner whose every call raises [e]. *)
Definition raising_planner (e : PyException) : Planner :=
  {| plan_next_steps := λ _ _ _, inl e;
     format_final_response := λ _, inl e |}.

(** * Properties *)

(** ** Agent invocation *)

Lemma string_app_assoc (s1 s2 s3 : string) :
  (s1 +:+ s2) +:+ s3 = s1 +:+ (s2 +:+ s3).
Proof.
  induction s1 as [|c s1 IH]; [reflexivity|].
  change (String c ((s1 +:+ s2) +:+ s3) = String c (s1 +:+ (s2 +:+ s3))).
  by rewrite IH.
Qed.

Lemma pool_lookup_unknown coder executor debugger tester agent_name :
  agent_name ∉ pool_names →
  _initialize_agent_pool coder executor debugger tester !! agent_name = None.
Proof.
  unfold pool_names, _initialize_agent_pool. intros Hnot.
  rewrite !not_elem_of_cons in Hnot.
  destruct Hnot as (Hc & He & Hd & Ht & _).
  rewrite !lookup_insert_ne by congruence.
  apply lookup_empty.
Qed.

Lemma pool_lookup_known coder executor debugger tester agent_name :
  agent_name ∈ pool_names →
  is_Some (_initialize_agent_pool coder executor debugger tester !! agent_name).
Proof.
  unfold pool_names, _initialize_agent_pool. intros Hin.
  rewrite !elem_of_cons in Hin. rewrite elem_of_nil in Hin.
  destruct Hin as [->|[->|[->|[->|[]]]]]; vm_compute; eauto.
Qed.

Lemma execute_agent_task_outcome self agent_name task ctx w :
  agent_task_outcome self agent_name task w
    (_execute_agent_task self agent_name task ctx w).
Proof.
  unfold _execute_agent_task.
  destruct (agent_pool self !! agent_name) as [agent|] eqn:Hpool.
  - destruct (execute_task agent task ctx (invocation_log w)) as [e|stream].
    + eapply outcome_result; eauto.
    + destruct (get_final_response stream); eapply outcome_result; eauto.
  - by apply outcome_unknown.
Qed.

(** The lookup of line 74 stands one line before the [try], so that the
    handler of lines 94-99 does not cover it: for an agent name that is not a
    key of the pool it raises [KeyError], no agent is invoked and no
    [TaskResult] is made.  This is the defect behind C1 and C5. *)
Lemma lookup_before_try_raises
    (p : Planner) (coder executor debugger tester : Agent)
    (agent_name task : string) (ctx : gmap string Any) (w : World) :
  agent_name ∉ pool_names →
  let self := DevelopmentChat_init p coder executor debugger tester in
  _execute_agent_task self agent_name task ctx w = (w, inl (KeyError agent_name))
  ∧ (∀ rest st,
       execute_batch self (Step.mk agent_name task :: rest) st w
       = (w, inl (KeyError agent_name)))
  ∧ (∀ user_task plan_result rest st,
       step self user_task (mkConfig st w (InFor plan_result (Step.mk agent_name task :: rest)))
       = Some (mkConfig st w (Crashed (KeyError agent_name)))).
Proof.
  intros Hnot self.
  assert (Hexec : ∀ ctx', _execute_agent_task self agent_name task ctx' w
                          = (w, inl (KeyError agent_name))).
  { intros ctx'. unfold _execute_agent_task, self. simpl.
    by rewrite pool_lookup_unknown. }
  split; [apply Hexec|]. split.
  - intros rest st. simpl. by rewrite Hexec.
  - intros user_task plan_result rest st. unfold step. simpl. by rewrite Hexec.
Qed.

(** C1 is not met by the code, which has a defect here: at a plan step whose
    agent name, ["reviewer"], is not a key of the pool, the lookup of line 74
    raises [KeyError] one line before the [try] whose handler turns every
    other failure of a step into a failed [TaskResult].  No [TaskResult] is
    returned; the exception leaves [_execute_agent_task] and, through the
    planning loop, [process_single_task]. *)
Theorem unknown_agent_escapes_handler :
  agent_pool reviewer_chat !! "reviewer" = None
  ∧ _execute_agent_task reviewer_chat "reviewer" "review the code" ∅ new_world
    = (new_world, inl (KeyError "reviewer"))
  ∧ process_single_task reviewer_chat "review my code" 5 new_world
    = (record_planning "review my code" fresh_project_state new_world,
       Some (inl (KeyError "reviewer")))
  ∧ ¬ unknown_agent_gives_failed_result reviewer_chat.
Proof.
  split; [reflexivity|]. split; [reflexivity|]. split; [reflexivity|].
  intros Hclaim.
  destruct (Hclaim "reviewer" "review the code" ∅ new_world) as (r & Hr & _).
  - reflexivity.
  - vm_compute in Hr. discriminate.
Qed.

(** C3: when the agent named by a step is in the pool and its call raises
    an exception [e], either from [execute_task] or from awaiting the final
    response of the stream, [_execute_agent_task] returns a [TaskResult] with
    [success = False] whose message is the fixed prefix followed by [str(e)];
    nothing is raised to the caller. *)
Theorem agent_exception_becomes_failed_result
    (self : DevelopmentChat) (agent_name task : string) (agent : Agent)
    (ctx : gmap string Any) (w : World) (e : PyException) :
  agent_pool self !! agent_name = Some agent →
  (execute_task agent task ctx (invocation_log w) = inl e
   ∨ ∃ stream, execute_task agent task ctx (invocation_log w) = inr stream
               ∧ get_final_response stream = inl e) →
  ∃ r, snd (_execute_agent_task self agent_name task ctx w) = inr r
       ∧ success r = false
       ∧ output r = PyNone
       ∧ message r = "Error during " +:+ agent_name +:+ " task execution: " +:+ exc_str e
       ∧ ∃ before, message r = before +:+ exc_str e.
Proof.
  intros Hpool Hraise.
  exists (failed_result agent_name e).
  split; [|split; [done|split; [done|split; [done|]]]].
  - unfold _execute_agent_task. rewrite Hpool.
    destruct Hraise as [->|(stream & -> & ->)]; done.
  - exists ("Error during " +:+ agent_name +:+ " task execution: ").
    unfold failed_result. simpl.
    by rewrite !string_app_assoc.
Qed.

Lemma agent_exception_becomes_failed_result_witness :
  ∃ r, snd (_execute_agent_task reviewer_chat "debugger" "find the bug" ∅ new_world)
       = inr r
       ∧ success r = false
       ∧ output r = PyNone
       ∧ message r = "Error during debugger task execution: model call timed out"
       ∧ ∃ before, message r = before +:+ "model call timed out".
Proof.
  exact (agent_exception_becomes_failed_result reviewer_chat
           "debugger" "find the bug" (raising timeout_error) ∅ new_world
           timeout_error eq_refl (or_introl eq_refl)).
Defined.

(** ** One batch of plan steps *)

Lemma invoked_since_app (w : World) (plans : list (string * ProjectState))
    (new : list Invocation.t) :
  invoked_since w (mkWorld plans (invocation_log w ++ new)) = new.
Proof. unfold invoked_since. simpl. by rewrite drop_app_length. Qed.

(** What the [for] loop does, in terms of the invocations [new] it makes:
    they are the first steps of the batch, in order; all but the last were
    successful; the state is updated once per invocation; and the loop ends
    at the end of the list, at a failed result, or at an unregistered agent. *)
Lemma execute_batch_spec (self : DevelopmentChat) (steps : list Step.t) :
  ∀ st w, ∃ new,
    fst (execute_batch self steps st w)
    = mkWorld (planning_log w) (invocation_log w ++ new)
    ∧ called <$> new = requested <$> take (length new) steps
    ∧ (∀ i inv, new !! i = Some inv → S i < length new →
                success (Invocation.result inv) = true)
    ∧ match snd (execute_batch self steps st w) with
      | inr st' =>
          st' = mkState (status st) (current_phase st)
                  (foldl store_result (results st) new)
                  (context st)
                  (history st ++ (history_record (current_phase st) <$> new))
          ∧ (length new = length steps
             ∨ ∃ inv, last new = Some inv
                      ∧ success (Invocation.result inv) = false)
      | inl e =>
          (∃ s, steps !! length new = Some s
                ∧ agent_pool self !! Step.agent s = None
                ∧ e = KeyError (Step.agent s))
          ∧ ∀ inv, inv ∈ new → success (Invocation.result inv) = true
      end.
Proof.
  induction steps as [|s rest IH]; intros st w.
  - exists []. simpl. rewrite !app_nil_r. destruct w, st; simpl.
    split; [done|]. split; [done|]. split; [intros ?? [=]|].
    split; [done|by left].
  - simpl.
    destruct (execute_agent_task_outcome self (Step.agent s) (Step.task s)
                (context st) w) as [Hnone|agent r Hsome].
    + exists []. simpl. rewrite app_nil_r. destruct w; simpl.
      split; [done|]. split; [done|]. split; [intros ?? [=]|].
      split; [eauto|]. intros inv' Hin. by apply elem_of_nil in Hin.
    + set (inv := Invocation.mk (Step.agent s) (Step.task s) r).
      destruct (success r) eqn:Hr.
      * destruct (IH (update_project_state (Step.agent s) (Step.task s) r st)
                     (record_invocation (Step.agent s) (Step.task s) r w))
          as (new & Hw & Hcalled & Hsucc & Hout).
        exists (inv :: new).
        split.
        { rewrite Hw. simpl. by rewrite <- app_assoc. }
        split.
        { simpl. f_equal. exact Hcalled. }
        split.
        { intros [|i] inv' Hi Hlt; simpl in Hi, Hlt.
          - by injection Hi as <-.
          - eapply Hsucc; [done|lia]. }
        destruct (snd (execute_batch self rest _ _)) as [e|st'].
        { destruct Hout as [Hstop Hall]. split; [exact Hstop|].
          intros inv' [->|Hin]%elem_of_cons; [exact Hr|by apply Hall]. }
        destruct Hout as [-> Hend]. split.
        { simpl. by rewrite <- app_assoc. }
        destruct Hend as [Hlen|(inv' & Hlast & Hfail)].
        { left. simpl. by rewrite Hlen. }
        right. exists inv'. split; [|done].
        rewrite last_cons, Hlast. done.
      * exists [inv]. simpl.
        split; [done|]. split; [done|]. split.
        { intros [|i] inv' Hi Hlt; simpl in *; [lia|by destruct i]. }
        split; [done|]. right. by exists inv.
Qed.



(** A batch whose steps all name registered agents does not raise. *)
Lemma execute_batch_within_pool (self : DevelopmentChat) (steps : list Step.t)
    (st : ProjectState) (w : World) :
  Forall (λ s, is_Some (agent_pool self !! Step.agent s)) steps →
  ∃ st', snd (execute_batch self steps st w) = inr st'.
Proof.
  intros Hpool.
  destruct (execute_batch_spec self steps st w) as (new & _ & _ & _ & Hout).
  destruct (snd (execute_batch self steps st w)) as [e|st']; [|eauto].
  destruct Hout as [(s & Hs & Hnone & _) _].
  rewrite Forall_lookup in Hpool. apply Hpool in Hs.
  rewrite Hnone in Hs. by destruct Hs.
Qed.

(** C2: in every batch, if the [k]-th agent invocation of the batch (the
    execution of step [k], counting from 0) produced a [TaskResult] with
    [success = False], then the invocations made by the batch are exactly
    those of steps [0..k], in list order: no agent of a later step of that
    batch is invoked, whether the loop then ends normally or not. *)
Theorem failed_step_ends_batch
    (self : DevelopmentChat) (steps : list Step.t) (st : ProjectState)
    (w : World) (k : nat) (inv : Invocation.t) :
  let w' := fst (execute_batch self steps st w) in
  invoked_since w w' !! k = Some inv →
  success (Invocation.result inv) = false →
  called <$> invoked_since w w' = requested <$> take (S k) steps
  ∧ length (invoked_since w w') = S k
  ∧ ∀ j, k < j → invoked_since w w' !! j = None.
Proof.
  intros w' Hk Hfail. subst w'.
  destruct (execute_batch_spec self steps st w) as (new & Hw & Hcalled & Hsucc & _).
  rewrite Hw, invoked_since_app in *.
  assert (Hlen : length new = S k).
  { pose proof (lookup_lt_Some _ _ _ Hk) as Hlt.
    destruct (decide (S k < length new)) as [Hmore|]; [|lia].
    rewrite (Hsucc k inv Hk Hmore) in Hfail. discriminate. }
  rewrite <- Hlen at 1. split; [done|]. split; [done|].
  intros j Hj. apply lookup_ge_None. lia.
Qed.

Lemma failed_step_ends_batch_witness :
  let self := stub_chat (repeating_planner finished) in
  let steps := [Step.mk "coder" "write add"; Step.mk "debugger" "find the bug";
                Step.mk "executor" "run it"] in
  let w' := fst (execute_batch self steps fresh_project_state new_world) in
  called <$> invoked_since new_world w'
  = [("coder", "write add"); ("debugger", "find the bug")]
  ∧ length (invoked_since new_world w') = 2
  ∧ ∀ j, 1 < j → invoked_since new_world w' !! j = None.
Proof.
  exact (failed_step_ends_batch (stub_chat (repeating_planner finished))
           [Step.mk "coder" "write add"; Step.mk "debugger" "find the bug";
            Step.mk "executor" "run it"]
           fresh_project_state new_world 1
           (Invocation.mk "debugger" "find the bug"
              (failed_result "debugger" timeout_error))
           eq_refl eq_refl).
Defined.

(** ** The results mapping and the history *)

Lemma foldl_store_result_lookup (new : list Invocation.t) :
  ∀ (m : gmap string TaskResult) (a : string),
    foldl store_result m new !! a
    = match last_invocation_of a new with
      | Some inv => Some (Invocation.result inv)
      | None => m !! a
      end.
Proof.
  unfold last_invocation_of.
  induction new as [|inv new IH]; intros m a; [done|].
  simpl. rewrite IH. unfold store_result.
  destruct (decide (Invocation.agent inv = a)) as [Heq|Hne].
  - rewrite filter_cons_True by done. rewrite last_cons.
    destruct (last (filter _ new)); [done|].
    rewrite <- Heq. apply lookup_insert_eq.
  - rewrite filter_cons_False by done.
    destruct (last (filter _ new)); [done|].
    by apply lookup_insert_ne.
Qed.

Lemma foldl_store_result_dom (new : list Invocation.t) :
  ∀ m : gmap string TaskResult,
    dom (foldl store_result m new)
    = dom m ∪ list_to_set (Invocation.agent <$> new).
Proof.
  induction new as [|inv new IH]; intros m.
  - simpl. by rewrite (right_id_L ∅ (∪)).
  - rewrite fmap_cons, list_to_set_cons. simpl. rewrite IH.
    unfold store_result. rewrite dom_insert_L.
    rewrite (comm_L (∪) {[Invocation.agent inv]} (dom m)).
    by rewrite <- (assoc_L (∪)).
Qed.

(** C6: after the batch of one planning/execution cycle, for every agent
    invoked in the cycle the results mapping holds one entry, the
    [TaskResult] of that agent's last invocation, whatever was stored for the
    agent before the cycle; the entries of agents not invoked in the cycle
    are the ones of before; the keys are those of before and the agents
    invoked; and the history is the one of before followed by one
    [{phase, agent, task, result}] record per invocation, in call order. *)
Theorem results_keep_latest_history_keeps_all
    (self : DevelopmentChat) (steps : list Step.t) (st st' : ProjectState)
    (w w' : World) :
  execute_batch self steps st w = (w', inr st') →
  let new := invoked_since w w' in
  (∀ a inv, last_invocation_of a new = Some inv →
            results st' !! a = Some (Invocation.result inv))
  ∧ (∀ a, last_invocation_of a new = None → results st' !! a = results st !! a)
  ∧ dom (results st') = dom (results st) ∪ list_to_set (Invocation.agent <$> new)
  ∧ history st' = (history st ++ (history_record (current_phase st) <$> new))%list.
Proof.
  intros Hrun.
  destruct (execute_batch_spec self steps st w) as (new & Hw & _ & _ & Hout).
  rewrite Hrun in Hw, Hout. simpl in Hw, Hout.
  destruct Hout as [-> _]. rewrite Hw, invoked_since_app. simpl.
  split; [|split; [|split]].
  - intros a inv Hlast. by rewrite foldl_store_result_lookup, Hlast.
  - intros a Hlast. by rewrite foldl_store_result_lookup, Hlast.
  - apply foldl_store_result_dom.
  - done.
Qed.

(** ** The planning loop as a transition system *)

Lemma run_halted (self : DevelopmentChat) (task : string) (n : nat) (c : Config) :
  step self task c = None → run self task n c = c.
Proof. intros Hc. destruct n; simpl; [done|by rewrite Hc]. Qed.

Lemma run_add (self : DevelopmentChat) (task : string) (n m : nat) :
  ∀ c, run self task (n + m) c = run self task m (run self task n c).
Proof.
  induction n as [|n IH]; intros c; simpl; [done|].
  destruct (step self task c) as [c'|] eqn:Hc; [apply IH|].
  by rewrite run_halted.
Qed.

Lemma reachable_run (self : DevelopmentChat) (task : string) (w0 : World) (n : nat) :
  ∀ c, reachable self task w0 c → reachable self task w0 (run self task n c).
Proof.
  induction n as [|n IH]; intros c Hc; simpl; [done|].
  destruct (step self task c) as [c'|] eqn:Hstep; [|done].
  apply IH. by eapply reachable_step.
Qed.

Lemma step_status (self : DevelopmentChat) (task : string) (c c' : Config) :
  status_matches_control c → step self task c = Some c' →
  status_matches_control c'
  ∧ (status (cfg_state c') = status (cfg_state c)
     ∨ (status (cfg_state c) = "in_progress"
        ∧ status (cfg_state c') = "completed")).
Proof.
  destruct c as [st w ctl]. unfold status_matches_control, step. simpl.
  intros Hinv Hstep. destruct ctl as [|p [|s rest]|p| |e].
  - rewrite Hinv in Hstep. simpl in Hstep.
    destruct (plan_next_steps _ _ _ _) as [e|p].
    + injection Hstep as <-. simpl. auto.
    + destruct (Plan.is_complete p); injection Hstep as <-; simpl; auto.
  - injection Hstep as <-. simpl. auto.
  - destruct (_execute_agent_task _ _ _ _ _) as [w' [e|r]].
    + injection Hstep as <-. simpl. auto.
    + destruct (success r); injection Hstep as <-; simpl; auto.
  - injection Hstep as <-. simpl. auto.
  - discriminate.
  - discriminate.
Qed.

Lemma reachable_status (self : DevelopmentChat) (task : string) (w0 : World)
    (c : Config) :
  reachable self task w0 c → status_matches_control c.
Proof.
  induction 1 as [|c c' _ IH Hstep]; [done|].
  by destruct (step_status self task c c' IH Hstep).
Qed.

(** C4: in every configuration [_plan_and_execute] passes through, the
    status is ['in_progress'] or ['completed']; a transition either keeps the
    status or takes it from ['in_progress'] to ['completed']; and once the
    status is ['completed'] the method has returned, so that no transition
    is left to change it. *)
Theorem status_only_advances
    (self : DevelopmentChat) (task : string) (w0 : World) (c : Config) :
  reachable self task w0 c →
  (status (cfg_state c) = "in_progress" ∨ status (cfg_state c) = "completed")
  ∧ (∀ c', step self task c = Some c' →
           status (cfg_state c') = status (cfg_state c)
           ∨ (status (cfg_state c) = "in_progress"
              ∧ status (cfg_state c') = "completed"))
  ∧ (status (cfg_state c) = "completed" →
     cfg_control c = Returned ∧ step self task c = None).
Proof.
  intros Hreach. pose proof (reachable_status _ _ _ _ Hreach) as Hinv.
  split; [|split].
  - unfold status_matches_control in Hinv. destruct (cfg_control c); auto.
  - intros c' Hstep. by destruct (step_status self task c c' Hinv Hstep).
  - intros Hdone. unfold status_matches_control in Hinv.
    destruct c as [st w ctl]. simpl in *.
    destruct ctl; try (rewrite Hdone in Hinv; discriminate). done.
Qed.

Lemma run_step (self : DevelopmentChat) (task : string) (n : nat) (c c' : Config) :
  step self task c = Some c' → run self task (S n) c = run self task n c'.
Proof. intros Hc. simpl. by rewrite Hc. Qed.



(** C9: when the planning call returns a plan that is not complete, the
    iteration either ends with [current_phase] set to the plan's
    [next_phase], or is left by the [KeyError] of an unregistered agent
    after successful steps only.  So whenever a step of the batch failed,
    the rest of the batch is abandoned and the phase is updated all the
    same. *)
Theorem phase_updated_after_failed_batch
    (self : DevelopmentChat) (task : string) (st : ProjectState) (w : World)
    (p : Plan.result) :
  plan_next_steps (planner self) task st (length (planning_log w)) = inr p →
  Plan.is_complete p = false →
  let w' := fst (loop_iteration self task st w) in
  match snd (loop_iteration self task st w) with
  | Continue st' =>
      current_phase st' = Plan.next_phase p ∧ status st' = status st
  | Raise e =>
      (∃ s, s ∈ Plan.next_steps p ∧ agent_pool self !! Step.agent s = None
            ∧ e = KeyError (Step.agent s))
      ∧ ∀ inv, inv ∈ invoked_since w w' → success (Invocation.result inv) = true
  | Break _ => False
  end
  ∧ ∀ inv, inv ∈ invoked_since w w' →
           success (Invocation.result inv) = false →
           ∃ st', snd (loop_iteration self task st w) = Continue st'
                  ∧ current_phase st' = Plan.next_phase p.
Proof.
  intros Hplan Hp. unfold loop_iteration. rewrite Hplan, Hp.
  destruct (execute_batch_spec self (Plan.next_steps p) st (record_planning task st w))
    as (new & Hw & _ & _ & Hout).
  destruct (execute_batch self (Plan.next_steps p) st (record_planning task st w))
    as [w2 [e|st']]; simpl in *; subst w2.
  - rewrite invoked_since_app.
    destruct Hout as [(s & Hs & Hnone & ->) Hall]. split.
    + split; [|exact Hall]. exists s. split; [|done].
      by eapply list_elem_of_lookup_2.
    + intros inv Hin Hfail. rewrite (Hall inv Hin) in Hfail. discriminate.
  - destruct Hout as [-> _]. simpl. split; [done|]. eauto.
Qed.

(** ** Termination of the planning loop *)



Lemma execute_agent_task_planning_log (self : DevelopmentChat)
    (agent_name task : string) (ctx : gmap string Any) (w : World) :
  planning_log (fst (_execute_agent_task self agent_name task ctx w))
  = planning_log w.
Proof. by destruct (execute_agent_task_outcome self agent_name task ctx w). Qed.



(** C5 is not met by the code, through the defect of C1: the planner of
    [reviewer_chat] reports completion on its second call and not before,
    but its first plan names the unregistered agent ["reviewer"]; whatever
    the number of transitions allowed, [_plan_and_execute] is left by
    [KeyError] after one planning call and never returns. *)
Theorem unknown_agent_ends_loop_before_completion :
  reports_completion_on_call (planner reviewer_chat) 0 2
  ∧ (∀ fuel,
       _plan_and_execute reviewer_chat "review my code" (S (S fuel)) new_world
       = (record_planning "review my code" fresh_project_state new_world,
          Some (inl (KeyError "reviewer"))))
  ∧ length (planned_since new_world
              (record_planning "review my code" fresh_project_state new_world)) = 1
  ∧ ¬ returns_after_N_planning_calls reviewer_chat.
Proof.
  assert (Hreports : reports_completion_on_call (planner reviewer_chat) 0 2).
  { split; [lia|]. intros task st [|[|i]] Hi; [| |lia]; eexists; split; reflexivity. }
  assert (Hraises : ∀ fuel,
    _plan_and_execute reviewer_chat "review my code" (S (S fuel)) new_world
    = (record_planning "review my code" fresh_project_state new_world,
       Some (inl (KeyError "reviewer")))).
  { intros fuel. unfold _plan_and_execute.
    change (S (S fuel)) with (2 + fuel). rewrite run_add.
    assert (Hcrash : run reviewer_chat "review my code" 2 (entry new_world)
                     = mkConfig fresh_project_state
                         (record_planning "review my code" fresh_project_state new_world)
                         (Crashed (KeyError "reviewer"))) by reflexivity.
    by rewrite Hcrash, run_halted. }
  split; [exact Hreports|]. split; [exact Hraises|]. split; [reflexivity|].
  intros Hclaim.
  destruct (Hclaim "review my code" new_world 2 Hreports)
    as (fuel & w' & st & Hret & _).
  destruct fuel as [|[|fuel]]; [discriminate Hret..|].
  rewrite Hraises in Hret. discriminate Hret.
Qed.

(** In the session loop the [KeyError] is reported by the handler of the
    turn and the next line is read. *)
Example unknown_agent_reported_at_turn_boundary :
  chat_turns reviewer_chat 5 ["review my code"; "exit"] new_world
  = ([prompt_event; planning_event;
      PrintedError (KeyError "reviewer");
      Printed "Please try again or type 'exit' to quit.";
      prompt_event; Printed "Goodbye!"],
     record_planning "review my code" fresh_project_state new_world,
     SaidGoodbye).
Proof. reflexivity. Qed.

Example add_two_numbers_scenario :
  ∃ w' st,
    process_single_task coder_chat "write a function that adds two numbers" 6 new_world
    = (w', Some (inr st))
    ∧ status st = "completed" ∧ length (history st) = 1
    ∧ length (planning_log w') = 2.
Proof. eexists _, _. split; [reflexivity|]. done. Qed.

(** ** The state a task starts from *)

Lemma step_planning_log (self : DevelopmentChat) (task : string) (c c' : Config) :
  step self task c = Some c' →
  ∃ more, planning_log (cfg_world c') = planning_log (cfg_world c) ++ more.
Proof.
  destruct c as [st w ctl]. unfold step. cbn [cfg_state cfg_world cfg_control].
  intros Hstep. destruct ctl as [|p [|s rest]|p| |e]; try discriminate.
  - destruct (String.eqb (status st) "in_progress").
    + exists [(task, st)].
      destruct (plan_next_steps _ _ _ _) as [e|p];
        [|destruct (Plan.is_complete p)]; by injection Hstep as <-.
    + exists []. injection Hstep as <-. simpl. by rewrite app_nil_r.
  - exists []. injection Hstep as <-. simpl. by rewrite app_nil_r.
  - exists []. rewrite app_nil_r.
    pose proof (execute_agent_task_planning_log self (Step.agent s) (Step.task s)
                  (context st) w) as Hsame.
    destruct (_execute_agent_task _ _ _ _ _) as [w' [e|r]]; simpl in Hsame;
      [|destruct (success r)]; by injection Hstep as <-.
  - exists []. injection Hstep as <-. simpl. by rewrite app_nil_r.
Qed.

Lemma run_planning_log (self : DevelopmentChat) (task : string) (n : nat) :
  ∀ c, ∃ more,
    planning_log (cfg_world (run self task n c)) = planning_log (cfg_world c) ++ more.
Proof.
  induction n as [|n IH]; intros c; simpl.
  - exists []. by rewrite app_nil_r.
  - destruct (step self task c) as [c'|] eqn:Hstep.
    + destruct (step_planning_log _ _ _ _ Hstep) as [more1 H1].
      destruct (IH c') as [more2 H2].
      exists (more1 ++ more2). by rewrite H2, H1, app_assoc.
    + exists []. by rewrite app_nil_r.
Qed.

Lemma plan_and_execute_world (self : DevelopmentChat) (task : string)
    (fuel : nat) (w : World) :
  fst (_plan_and_execute self task fuel w)
  = cfg_world (run self task fuel (entry w)).
Proof.
  unfold _plan_and_execute.
  by destruct (cfg_control (run self task fuel (entry w))).
Qed.

(** The first planning call of [_plan_and_execute] is given the task and the
    fresh state, and the log of earlier calls is kept. *)
Lemma plan_and_execute_first_call (self : DevelopmentChat) (task : string)
    (fuel : nat) (w : World) :
  ∃ more,
    planning_log (fst (_plan_and_execute self task (S fuel) w))
    = planning_log w ++ (task, fresh_project_state) :: more.
Proof.
  rewrite plan_and_execute_world.
  assert (∃ c1, step self task (entry w) = Some c1
                ∧ planning_log (cfg_world c1)
                  = planning_log w ++ [(task, fresh_project_state)])
    as (c1 & Hstep & Hlog).
  { unfold step, entry. cbn [cfg_state cfg_world cfg_control]. simpl.
    destruct (plan_next_steps _ _ _ _) as [e|p];
      [|destruct (Plan.is_complete p)]; eexists; by split. }
  rewrite (run_step _ _ _ _ _ Hstep).
  destruct (run_planning_log self task fuel c1) as [more Hmore].
  exists more. by rewrite Hmore, Hlog, <- app_assoc.
Qed.

Lemma plan_and_execute_planning_log (self : DevelopmentChat) (task : string)
    (fuel : nat) (w : World) :
  ∃ more,
    planning_log (fst (_plan_and_execute self task fuel w)) = planning_log w ++ more.
Proof.
  rewrite plan_and_execute_world. apply (run_planning_log self task fuel (entry w)).
Qed.

(** C8: [_plan_and_execute] starts from a state it has just created, with
    status ['in_progress'], phase ['planning'] and empty results, context and
    history; this state, with the task, is what its first planning call is
    given, whatever calls were made for earlier tasks. *)
Theorem every_task_starts_fresh
    (self : DevelopmentChat) (task : string) (fuel : nat) (w : World) :
  let st0 := cfg_state (entry w) in
  status st0 = "in_progress"
  ∧ current_phase st0 = "planning"
  ∧ results st0 = ∅ ∧ context st0 = ∅ ∧ history st0 = []
  ∧ cfg_control (entry w) = AtWhile
  ∧ planned_since w (fst (_plan_and_execute self task (S fuel) w)) !! 0
    = Some (task, st0).
Proof.
  repeat (split; [reflexivity|]).
  destruct (plan_and_execute_first_call self task fuel w) as [more Hlog].
  unfold planned_since. by rewrite Hlog, drop_app_length.
Qed.

Example second_task_starts_fresh :
  let w1 := fst (_plan_and_execute coder_chat "write a function that adds two numbers"
                   6 new_world) in
  length (planning_log w1) = 2
  ∧ planned_since w1 (fst (_plan_and_execute coder_chat "now subtract" 6 w1)) !! 0
    = Some ("now subtract", fresh_project_state).
Proof. split; reflexivity. Qed.

(** ** The session loop *)

Lemma lower_char_e (c : ascii) : lower_char c = "e"%char → c = "e"%char ∨ c = "E"%char.
Proof. by_cases_on_bits c. Qed.

Lemma lower_char_x (c : ascii) : lower_char c = "x"%char → c = "x"%char ∨ c = "X"%char.
Proof. by_cases_on_bits c. Qed.

Lemma lower_char_i (c : ascii) : lower_char c = "i"%char → c = "i"%char ∨ c = "I"%char.
Proof. by_cases_on_bits c. Qed.

Lemma lower_char_t (c : ascii) : lower_char c = "t"%char → c = "t"%char ∨ c = "T"%char.
Proof. by_cases_on_bits c. Qed.

Lemma lower_exit_iff (u : string) : lower u = "exit" ↔ u ∈ exit_spellings.
Proof.
  split.
  - destruct u as [|c1 [|c2 [|c3 [|c4 [|c5 u]]]]]; try discriminate.
    simpl. intros H. injection H as H1 H2 H3 H4.
    apply lower_char_e in H1. apply lower_char_x in H2.
    apply lower_char_i in H3. apply lower_char_t in H4.
    unfold exit_spellings. rewrite !elem_of_cons.
    destruct H1 as [-> | ->], H2 as [-> | ->], H3 as [-> | ->], H4 as [-> | ->];
      repeat first [by left | right].
  - unfold exit_spellings. rewrite !elem_of_cons, elem_of_nil.
    intros H. repeat (destruct H as [->|H]; [reflexivity|]). destruct H.
Qed.

Lemma chat_turns_planning_log (self : DevelopmentChat) (fuel : nat)
    (inputs : list string) :
  ∀ w, ∃ more,
    planning_log (chat_turns self fuel inputs w).1.2 = planning_log w ++ more.
Proof.
  induction inputs as [|u rest IH]; intros w; simpl.
  - exists []. by rewrite app_nil_r.
  - destruct (String.eqb (lower u) "exit").
    + exists []. by rewrite app_nil_r.
    + destruct (plan_and_execute_planning_log self u fuel w) as [more1 H1].
      destruct (_plan_and_execute self u fuel w) as [w' [r|]]; simpl in H1.
      * destruct (IH w') as [more2 H2].
        destruct (chat_turns self fuel rest w') as [[events w''] ending].
        simpl in *. exists (more1 ++ more2). by rewrite H2, H1, app_assoc.
      * by exists more1.
Qed.

(** C10: the session ends, with the farewell message and without any
    planning call, on every input whose lower-case form is ['exit'], that is
    on ['exit'] in any mix of upper and lower case ('EXIT', 'Exit', ...);
    every other input is announced and handed to [_plan_and_execute] as the
    task of a new, fresh project state. *)
Theorem exit_check_ignores_case
    (self : DevelopmentChat) (fuel : nat) (user_input : string)
    (rest : list string) (w : World) :
  (lower user_input = "exit" ↔ user_input ∈ exit_spellings)
  ∧ (lower user_input = "exit" →
     chat_turns self fuel (user_input :: rest) w
     = ([prompt_event; Printed "Goodbye!"], w, SaidGoodbye))
  ∧ (lower user_input ≠ "exit" →
     ∃ events w' ending,
       chat_turns self (S fuel) (user_input :: rest) w
       = (prompt_event :: planning_event :: events, w', ending)
       ∧ planned_since w w' !! 0 = Some (user_input, fresh_project_state)).
Proof.
  split; [apply lower_exit_iff|]. split.
  - intros Hexit. simpl. by rewrite Hexit.
  - intros Hother. cbn [chat_turns].
    apply String.eqb_neq in Hother. rewrite Hother.
    destruct (plan_and_execute_first_call self user_input fuel w) as [more1 H1].
    destruct (_plan_and_execute self user_input (S fuel) w) as [w1 [r|]];
      cbn [fst] in H1.
    + destruct (chat_turns_planning_log self (S fuel) rest w1) as [more2 H2].
      destruct (chat_turns self (S fuel) rest w1) as [[events w2] ending].
      cbn [fst snd] in H2. eexists _, w2, ending. split; [reflexivity|].
      unfold planned_since. rewrite H2, H1, <- app_assoc, drop_app_length. done.
    + eexists [], w1, StillWorking. split; [reflexivity|].
      unfold planned_since. by rewrite H1, drop_app_length.
Qed.

Lemma exit_check_ignores_case_witness :
  chat_turns coder_chat 6 ["EXIT"; "write a function"] new_world
  = ([prompt_event; Printed "Goodbye!"], new_world, SaidGoodbye)
  ∧ chat_turns coder_chat 6 ["Exit"] new_world
    = ([prompt_event; Printed "Goodbye!"], new_world, SaidGoodbye)
  ∧ ∃ events w' ending,
      chat_turns coder_chat 6 ["exit now"; "exit"] new_world
      = (prompt_event :: planning_event :: events, w', ending)
      ∧ planned_since new_world w' !! 0 = Some ("exit now", fresh_project_state).
Proof.
  split; [|split].
  - exact (proj1 (proj2 (exit_check_ignores_case coder_chat 6 "EXIT"
                           ["write a function"] new_world)) eq_refl).
  - exact (proj1 (proj2 (exit_check_ignores_case coder_chat 6 "Exit" [] new_world))
             eq_refl).
  - apply (proj2 (proj2 (exit_check_ignores_case coder_chat 5 "exit now" ["exit"]
                           new_world))).
    discriminate.
Defined.

(** ** The testing agent *)

(** C7: when the test run returns a result with [success = False],
    [execute_tests] calls [_coordinate_with_debugger] once, with the [errors]
    value of that result, and returns the result; when the test run returns
    [success = True] the hook is not called.  With [_run_tests] as the class
    defines it, the hook is never called. *)
Theorem failed_tests_reach_debugger_hook
    (self : Tester.TestingAgent) (code : string) (calls : list Any) :
  let test_results := Tester.run_tests_method self code in
  (Tester.success test_results = false →
   Tester.execute_tests self code calls
   = (calls ++ [Tester.errors test_results], test_results))
  ∧ (Tester.success test_results = true →
     Tester.execute_tests self code calls = (calls, test_results))
  ∧ Tester.execute_tests Tester.TestingAgent_init code calls
    = (calls, Tester._run_tests code).
Proof.
  unfold Tester.execute_tests. simpl. split; [|split].
  - by intros ->.
  - by intros ->.
  - done.
Qed.

Lemma failed_tests_reach_debugger_hook_witness :
  Tester.execute_tests (failing_tester add_failures) "def add(a, b): return a - b" []
  = ([add_failures], Tester.mkResults false add_failures "2 tests failed.").
Proof.
  exact (proj1 (failed_tests_reach_debugger_hook (failing_tester add_failures)
                  "def add(a, b): return a - b" []) eq_refl).
Defined.

(** ** Instances *)

Lemma results_keep_latest_history_keeps_all_witness :
  let self := stub_chat (repeating_planner finished) in
  let st' := batch_state self revision_batch state_after_failed_coder new_world in
  results state_after_failed_coder !! "coder"
  = Some (failed_result "coder" timeout_error)
  ∧ results st' !! "coder" = Some (successful_result code_response)
  ∧ results st' !! "executor" = Some (successful_result run_response)
  ∧ results st' !! "tester" = None
  ∧ length (history st') = 4.
Proof.
  intros self st'.
  pose (w' := fst (execute_batch self revision_batch state_after_failed_coder new_world)).
  destruct (results_keep_latest_history_keeps_all self revision_batch
              state_after_failed_coder st' new_world w' eq_refl)
    as (Hlast & Hkept & _ & Hhistory).
  split; [reflexivity|]. split; [|split; [|split]].
  - exact (Hlast "coder"
             (Invocation.mk "coder" "add a docstring" (successful_result code_response))
             eq_refl).
  - exact (Hlast "executor"
             (Invocation.mk "executor" "run it" (successful_result run_response))
             eq_refl).
  - rewrite (Hkept "tester" eq_refl). reflexivity.
  - rewrite Hhistory. reflexivity.
Defined.

Lemma status_only_advances_witness :
  let c := run coder_chat "write a function that adds two numbers" 1
             (entry new_world) in
  (status (cfg_state c) = "in_progress" ∨ status (cfg_state c) = "completed")
  ∧ (∀ c', step coder_chat "write a function that adds two numbers" c = Some c' →
           status (cfg_state c') = status (cfg_state c)
           ∨ (status (cfg_state c) = "in_progress"
              ∧ status (cfg_state c') = "completed"))
  ∧ (status (cfg_state c) = "completed" →
     cfg_control c = Returned
     ∧ step coder_chat "write a function that adds two numbers" c = None).
Proof.
  intros c.
  apply (status_only_advances coder_chat "write a function that adds two numbers"
           new_world c).
  eapply reachable_step; [apply reachable_entry|reflexivity].
Defined.

Lemma phase_updated_after_failed_batch_witness :
  let self := stub_chat (repeating_planner failing_plan) in
  let iteration := loop_iteration self "fix it" fresh_project_state new_world in
  (success ∘ Invocation.result) <$> invoked_since new_world (fst iteration) = [false]
  ∧ ∃ st', snd iteration = Continue st' ∧ current_phase st' = "debugging".
Proof.
  intros self iteration. split; [reflexivity|].
  exact (proj2 (phase_updated_after_failed_batch self "fix it" fresh_project_state
                  new_world failing_plan eq_refl eq_refl)
           (Invocation.mk "debugger" "find the bug"
              (failed_result "debugger" timeout_error))
           ltac:(vm_compute; apply list_elem_of_here) eq_refl).
Defined.

(** * Further properties of the coordinator *)

(** What one transition does to the state and to the invocation log: either
    it leaves results, context, history and the log alone, or it is the
    execution of one step by a registered agent. *)
Lemma step_effect (self : DevelopmentChat) (task : string) (c c' : Config) :
  step self task c = Some c' →
  (invocation_log (cfg_world c') = invocation_log (cfg_world c)
   ∧ results (cfg_state c') = results (cfg_state c)
   ∧ context (cfg_state c') = context (cfg_state c)
   ∧ history (cfg_state c') = history (cfg_state c))
  ∨ (∃ a t r agent,
       agent_pool self !! a = Some agent
       ∧ cfg_state c' = update_project_state a t r (cfg_state c)
       ∧ cfg_world c' = record_invocation a t r (cfg_world c)).
Proof.
  destruct c as [st w ctl]. unfold step. cbn [cfg_state cfg_world cfg_control].
  intros Hstep. destruct ctl as [|p [|s rest]|p| |e]; try discriminate.
  - left. destruct (String.eqb (status st) "in_progress").
    + destruct (plan_next_steps _ _ _ _) as [e|p];
        [|destruct (Plan.is_complete p)]; by injection Hstep as <-.
    + by injection Hstep as <-.
  - left. by injection Hstep as <-.
  - destruct (execute_agent_task_outcome self (Step.agent s) (Step.task s)
                (context st) w) as [Hnone|agent r Hsome].
    + left. by injection Hstep as <-.
    + right. exists (Step.agent s), (Step.task s), r, agent.
      destruct (success r); by injection Hstep as <-.
  - left. by injection Hstep as <-.
Qed.

Lemma last_record_of_snoc (a : string) (h : list Entry.t) (e : Entry.t) :
  last_record_of a (h ++ [e])
  = if decide (Entry.agent e = a) then Some e else last_record_of a h.
Proof.
  unfold last_record_of. rewrite filter_app.
  destruct (decide (Entry.agent e = a)) as [Heq|Hne].
  - rewrite (filter_cons_True _ e []) by done. rewrite filter_nil. apply last_snoc.
  - rewrite (filter_cons_False _ e []) by done. rewrite filter_nil.
    by rewrite app_nil_r.
Qed.

Lemma step_bookkeeping (self : DevelopmentChat) (task : string) (w0 : World)
    (c c' : Config) :
  bookkeeping self w0 c → step self task c = Some c' → bookkeeping self w0 c'.
Proof.
  intros [Hlog Hres Hpool] Hstep.
  destruct (step_effect self task c c' Hstep)
    as [(Hl & Hr & Hc & Hh)|(a & t & r & agent & Hagent & Hst & Hw)].
  - split; rewrite ?Hl, ?Hr, ?Hc, ?Hh; done.
  - destruct c' as [st' w' ctl']. cbn [cfg_state cfg_world] in *. subst st' w'.
    split; simpl.
    + rewrite Hlog, fmap_app, <- app_assoc. done.
    + intros a'. rewrite last_record_of_snoc. simpl.
      destruct (decide (a = a')) as [->|Hne].
      * by rewrite lookup_insert_eq.
      * rewrite lookup_insert_ne by done. apply Hres.
    + intros e [Hin| ->%list_elem_of_singleton]%elem_of_app; [by apply Hpool|].
      simpl. by rewrite Hagent.
Qed.

Lemma reachable_bookkeeping (self : DevelopmentChat) (task : string) (w0 : World)
    (c : Config) :
  reachable self task w0 c → bookkeeping self w0 c.
Proof.
  induction 1 as [|c c' _ IH Hstep].
  - split; simpl; [by rewrite app_nil_r|done|].
    intros e Hin. by apply elem_of_nil in Hin.
  - by eapply step_bookkeeping.
Qed.

(** X1: the history is the log of the agent invocations made for the task: in
    every configuration the method passes through, the history has one record
    per invocation made since the method was entered, in call order, with the
    agent name, the task and the [TaskResult] of that invocation. *)
Theorem history_logs_every_invocation
    (self : DevelopmentChat) (task : string) (w0 : World) (c : Config) :
  reachable self task w0 c →
  entry_invocation <$> history (cfg_state c) = invoked_since w0 (cfg_world c)
  ∧ length (history (cfg_state c)) = length (invoked_since w0 (cfg_world c)).
Proof.
  intros Hreach. destruct (reachable_bookkeeping _ _ _ _ Hreach) as [Hlog _ _].
  assert (Heq : entry_invocation <$> history (cfg_state c)
                = invoked_since w0 (cfg_world c)).
  { unfold invoked_since. by rewrite Hlog, drop_app_length. }
  split; [done|]. by rewrite <- Heq, length_fmap.
Qed.

Lemma history_logs_every_invocation_witness :
  let c := run coder_chat "write a function that adds two numbers" 3
             (entry new_world) in
  entry_invocation <$> history (cfg_state c) = invoked_since new_world (cfg_world c)
  ∧ length (history (cfg_state c)) = length (invoked_since new_world (cfg_world c)).
Proof.
  intros c.
  apply (history_logs_every_invocation coder_chat
           "write a function that adds two numbers" new_world c).
  apply reachable_run, reachable_entry.
Defined.

(** X2: the results mapping can be read off the history: in every configuration
    the method passes through, the entry of an agent is the result of the
    last history record of that agent, and an agent without a record has no
    entry. *)
Theorem results_are_last_history_records
    (self : DevelopmentChat) (task : string) (w0 : World) (c : Config)
    (a : string) :
  reachable self task w0 c →
  results (cfg_state c) !! a
  = Entry.result <$> last_record_of a (history (cfg_state c)).
Proof.
  intros Hreach. by destruct (reachable_bookkeeping _ _ _ _ Hreach) as [_ Hres _].
Qed.

Lemma results_are_last_history_records_witness :
  let c := run coder_chat "write a function that adds two numbers" 3
             (entry new_world) in
  results (cfg_state c) !! "coder"
  = Entry.result <$> last_record_of "coder" (history (cfg_state c)).
Proof.
  intros c.
  apply (results_are_last_history_records coder_chat
           "write a function that adds two numbers" new_world c "coder").
  apply reachable_run, reachable_entry.
Defined.

(** X3: only registered agents leave traces: in every configuration the method
    passes through, the keys of the results mapping and the agent names of
    the history records are keys of the agent pool. *)
Theorem results_and_history_within_pool
    (self : DevelopmentChat) (task : string) (w0 : World) (c : Config) :
  reachable self task w0 c →
  dom (results (cfg_state c)) ⊆ dom (agent_pool self)
  ∧ ∀ e, e ∈ history (cfg_state c) → Entry.agent e ∈ dom (agent_pool self).
Proof.
  intros Hreach.
  destruct (reachable_bookkeeping _ _ _ _ Hreach) as [_ Hres Hpool].
  assert (Hhist : ∀ e, e ∈ history (cfg_state c) →
                       Entry.agent e ∈ dom (agent_pool self)).
  { intros e He. apply elem_of_dom. by apply Hpool. }
  split; [|done].
  intros a [r Hr]%elem_of_dom. rewrite Hres in Hr. unfold last_record_of in Hr.
  destruct (last (filter _ _)) as [e|] eqn:Hlast; [|discriminate].
  apply last_Some_elem_of, list_elem_of_filter in Hlast as [<- He].
  by apply Hhist.
Qed.

Lemma results_and_history_within_pool_witness :
  let c := run coder_chat "write a function that adds two numbers" 3
             (entry new_world) in
  dom (results (cfg_state c)) ⊆ dom (agent_pool coder_chat)
  ∧ ∀ e, e ∈ history (cfg_state c) → Entry.agent e ∈ dom (agent_pool coder_chat).
Proof.
  intros c.
  apply (results_and_history_within_pool coder_chat
           "write a function that adds two numbers" new_world c).
  apply reachable_run, reachable_entry.
Defined.

(** ** Planning calls and exceptions *)

Lemma step_planned_for (self : DevelopmentChat) (task : string) (c c' : Config) :
  step self task c = Some c' →
  ∃ more, planning_log (cfg_world c') = planning_log (cfg_world c) ++ more
          ∧ planned_for task more.
Proof.
  destruct c as [st w ctl]. unfold step. cbn [cfg_state cfg_world cfg_control].
  intros Hstep.
  assert (Hnone : ∃ more, planning_log w = planning_log w ++ more
                          ∧ planned_for task more).
  { exists []. split; [by rewrite app_nil_r|]. intros t s Hin.
    by apply elem_of_nil in Hin. }
  destruct ctl as [|p [|s rest]|p| |e]; try discriminate.
  - destruct (String.eqb (status st) "in_progress") eqn:Hst.
    + apply String.eqb_eq in Hst. exists [(task, st)].
      split; [|by intros t s [= -> ->]%list_elem_of_singleton].
      destruct (plan_next_steps _ _ _ _) as [e|p];
        [|destruct (Plan.is_complete p)]; by injection Hstep as <-.
    + by injection Hstep as <-.
  - by injection Hstep as <-.
  - pose proof (execute_agent_task_planning_log self (Step.agent s) (Step.task s)
                  (context st) w) as Hsame.
    destruct (_execute_agent_task _ _ _ _ _) as [w' [e|r]]; simpl in Hsame;
      [|destruct (success r)]; injection Hstep as <-; simpl; by rewrite Hsame.
  - by injection Hstep as <-.
Qed.

Lemma reachable_planned_for (self : DevelopmentChat) (task : string) (w0 : World)
    (c : Config) :
  reachable self task w0 c →
  ∃ calls, planning_log (cfg_world c) = planning_log w0 ++ calls
           ∧ planned_for task calls.
Proof.
  induction 1 as [|c c' _ (calls & Hlog & Hcalls) Hstep].
  - exists []. split; [by rewrite app_nil_r|]. intros t s Hin.
    by apply elem_of_nil in Hin.
  - destruct (step_planned_for self task c c' Hstep) as (more & Hmore & Hfor).
    exists (calls ++ more). split; [by rewrite Hmore, Hlog, app_assoc|].
    intros t s [Hin|Hin]%elem_of_app; eauto.
Qed.

Lemma task_planning_calls (self : DevelopmentChat)
    (task : string) (fuel : nat) (w : World) :
  ∃ calls,
    planning_log (fst (_plan_and_execute self task fuel w)) = planning_log w ++ calls
    ∧ planned_for task calls.
Proof.
  rewrite plan_and_execute_world.
  apply (reachable_planned_for self task w).
  apply reachable_run, reachable_entry.
Qed.

(** X5: every planning call [_plan_and_execute task] makes, whether the method
    then returns, raises or is still running, is given [task] itself and a
    state whose status is ['in_progress']; the calls logged for earlier tasks
    stay as they are. *)
Theorem planner_always_asked_about_the_task
    (self : DevelopmentChat) (task : string) (fuel : nat) (w : World) :
  let w' := fst (_plan_and_execute self task fuel w) in
  planning_log w' = planning_log w ++ planned_since w w'
  ∧ ∀ t s, (t, s) ∈ planned_since w w' → t = task ∧ status s = "in_progress".
Proof.
  intros w'. subst w'. rewrite plan_and_execute_world.
  destruct (reachable_planned_for self task w _
              (reachable_run self task w fuel _ (reachable_entry self task w)))
    as (calls & Hlog & Hcalls).
  unfold planned_since. rewrite Hlog, drop_app_length. done.
Qed.

Lemma step_explained (self : DevelopmentChat) (task : string) (c c' : Config)
    (ex : Raised) :
  step self task c = Some c' → cfg_control c' = Crashed ex →
  explained self task (cfg_world c') ex.
Proof.
  destruct c as [st w ctl]. unfold step. cbn [cfg_state cfg_world cfg_control].
  intros Hstep Hctl. destruct ctl as [|p [|s rest]|p| |e]; try discriminate.
  - destruct (String.eqb (status st) "in_progress");
      [|by injection Hstep as <-].
    destruct (plan_next_steps (planner self) task st (length (planning_log w)))
      as [e|p] eqn:Hp.
    + injection Hstep as <-. injection Hctl as <-. simpl.
      exists st. rewrite last_snoc, length_app. simpl.
      replace (length (planning_log w) + 1 - 1) with (length (planning_log w)) by lia.
      done.
    + destruct (Plan.is_complete p); by injection Hstep as <-.
  - by injection Hstep as <-.
  - destruct (execute_agent_task_outcome self (Step.agent s) (Step.task s)
                (context st) w) as [Hnone|agent r Hsome].
    + injection Hstep as <-. by injection Hctl as <-.
    + destruct (success r); by injection Hstep as <-.
  - by injection Hstep as <-.
Qed.

(** X6: where the exceptions that leave [_plan_and_execute] come from, for
    the [KeyError] of the coordinator's own lookup and for the [Exception]
    instances raised by its collaborators.  A [KeyError] that leaves the
    method names a key that is not in the pool; an exception of a
    collaborator that leaves it was raised by the last planning call made,
    and is passed on as it was raised. *)
Theorem escaping_exceptions_explained
    (self : DevelopmentChat) (task : string) (fuel : nat) (w w' : World)
    (ex : Raised) :
  _plan_and_execute self task fuel w = (w', Some (inl ex)) →
  explained self task w' ex.
Proof.
  unfold _plan_and_execute.
  pose proof (reachable_run self task w fuel _ (reachable_entry self task w))
    as Hreach.
  revert Hreach. generalize (run self task fuel (entry w)). intros cf Hreach Hret.
  destruct (cfg_control cf) as [| | | |e] eqn:Hctl; try discriminate.
  injection Hret as <- <-.
  destruct Hreach as [|c c' Hc Hstep]; [discriminate Hctl|].
  by eapply step_explained.
Qed.

Lemma escaping_exceptions_explained_witness :
  agent_pool reviewer_chat !! "reviewer" = None
  ∧ explained (stub_chat (raising_planner timeout_error)) "fix it"
      (record_planning "fix it" fresh_project_state new_world)
      (Propagated timeout_error).
Proof.
  split.
  - exact (escaping_exceptions_explained reviewer_chat "review my code" 5 new_world
             (record_planning "review my code" fresh_project_state new_world)
             (KeyError "reviewer") eq_refl).
  - exact (escaping_exceptions_explained (stub_chat (raising_planner timeout_error))
             "fix it" 3 new_world
             (record_planning "fix it" fresh_project_state new_world)
             (Propagated timeout_error) eq_refl).
Defined.

(** ** Steps of a batch *)

(** X7: the steps of a batch are executed strictly in list order: the agent
    invocations a batch makes are those of an initial segment of its steps, one
    invocation per step; and when every step names a registered agent and no
    invocation fails, that segment is the whole batch. *)
Theorem batch_runs_in_list_order
    (self : DevelopmentChat) (steps : list Step.t) (st : ProjectState) (w : World) :
  let invoked := invoked_since w (fst (execute_batch self steps st w)) in
  called <$> invoked = requested <$> take (length invoked) steps
  ∧ length invoked ≤ length steps
  ∧ (Forall (λ s, is_Some (agent_pool self !! Step.agent s)) steps →
     (∀ inv, inv ∈ invoked → success (Invocation.result inv) = true) →
     called <$> invoked = requested <$> steps).
Proof.
  intros invoked. subst invoked.
  destruct (execute_batch_spec self steps st w) as (new & Hw & Hcalled & _ & Hout).
  rewrite Hw, invoked_since_app.
  assert (Hlen : length new ≤ length steps).
  { apply (f_equal length) in Hcalled.
    rewrite !length_fmap, length_take in Hcalled. lia. }
  split; [done|]. split; [done|].
  intros Hpool Hall.
  destruct (execute_batch_within_pool self steps st w Hpool) as [st' Hst'].
  rewrite Hst' in Hout. destruct Hout as [_ [Hfull|(inv & Hlast & Hfail)]].
  - rewrite Hcalled, Hfull. by rewrite firstn_all.
  - apply last_Some_elem_of, Hall in Hlast. congruence.
Qed.

Lemma batch_runs_in_list_order_witness :
  let self := stub_chat (repeating_planner finished) in
  let invoked :=
    invoked_since new_world
      (fst (execute_batch self revision_batch fresh_project_state new_world)) in
  called <$> invoked = requested <$> revision_batch.
Proof.
  intros self invoked.
  apply (proj2 (proj2 (batch_runs_in_list_order self revision_batch
                         fresh_project_state new_world))).
  - repeat constructor; vm_compute; eauto.
  - intros inv Hin.
    change (inv ∈ [Invocation.mk "coder" "write add" (successful_result code_response);
                   Invocation.mk "executor" "run it" (successful_result run_response);
                   Invocation.mk "coder" "add a docstring"
                     (successful_result code_response)]) in Hin.
    rewrite !elem_of_cons, elem_of_nil in Hin.
    destruct Hin as [->|[->|[->|[]]]]; reflexivity.
Defined.

(** ** One agent invocation *)

(** X8: when the agent named by a step is registered and neither its
    [execute_task] nor its stream raises, [_execute_agent_task] returns a
    [TaskResult] with [success = True] that carries the output, the message
    and the suggested next steps of the final response; in every case in
    which the agent is registered exactly one invocation is logged, and the
    result is successful only if the agent answered. *)
Theorem agent_answer_becomes_successful_result
    (self : DevelopmentChat) (agent_name task : string) (agent : Agent)
    (ctx : gmap string Any) (w : World) :
  agent_pool self !! agent_name = Some agent →
  ∃ r,
    _execute_agent_task self agent_name task ctx w
    = (record_invocation agent_name task r w, inr r)
    ∧ (∀ stream response,
         execute_task agent task ctx (invocation_log w) = inr stream →
         get_final_response stream = inr response →
         r = mkTaskResult true (Response.output response)
               (Response.message response)
               (Response.suggested_next_steps response))
    ∧ (success r = true →
       ∃ stream response,
         execute_task agent task ctx (invocation_log w) = inr stream
         ∧ get_final_response stream = inr response).
Proof.
  intros Hpool. unfold _execute_agent_task. rewrite Hpool.
  destruct (execute_task agent task ctx (invocation_log w)) as [e|stream].
  - eexists. split; [done|]. split; [by intros|]. by intros.
  - destruct (get_final_response stream) as [e|response] eqn:Hfinal.
    + eexists. split; [done|]. split.
      * intros stream' response' [= <-] Hr. congruence.
      * by intros.
    + eexists. split; [done|]. split.
      * intros stream' response' [= <-] Hr. rewrite Hfinal in Hr.
        by injection Hr as <-.
      * intros _. eauto.
Qed.

Lemma agent_answer_becomes_successful_result_witness :
  ∃ r,
    _execute_agent_task coder_chat "coder" "write add" ∅ new_world
    = (record_invocation "coder" "write add" r new_world, inr r)
    ∧ r = mkTaskResult true (PyStr "def add(a, b): return a + b") "implemented" None.
Proof.
  destruct (agent_answer_becomes_successful_result coder_chat "coder" "write add"
              (answering code_response) ∅ new_world eq_refl)
    as (r & Hrun & Hanswer & _).
  exists r. split; [exact Hrun|].
  exact (Hanswer _ code_response eq_refl eq_refl).
Defined.

(** * Further properties of the session loop *)

Lemma present_outcome_no_prompt (self : DevelopmentChat) (r : Raised + ProjectState) :
  filter is_prompt (present_outcome self r) = []
  ∧ present_outcome self r ≠ [].
Proof.
  unfold present_outcome, report_error.
  destruct r as [e|result]; [done|].
  by destruct (format_final_response (planner self) result).
Qed.

(** X10: the session reads its input up to the first line whose lower-case
    form is ['exit'] and no further.  A turn that finishes, whether
    [_plan_and_execute] returned, raised the [KeyError] of a lookup or passed
    on an exception of the planner, or [format_final_response] raised, is
    followed by the reading of the next line: what is printed is the outcome
    of the turn followed by the rest of the session.  The session therefore
    ends with the farewell, printed last after one prompt per line read; or
    at the end of the input, when no line was an exit, after one prompt per
    line and one more; or in a turn that does not finish, all lines before
    it having been read. *)
Theorem session_ends_only_on_exit
    (self : DevelopmentChat) (fuel : nat) (inputs : list string) (w : World) :
  (let events := (chat_turns self fuel inputs w).1.1 in
   match (chat_turns self fuel inputs w).2 with
   | SaidGoodbye =>
       ∃ before user_input after,
         inputs = before ++ user_input :: after
         ∧ lower user_input = "exit"
         ∧ (∀ v, v ∈ before → lower v ≠ "exit")
         ∧ length (filter is_prompt events) = S (length before)
         ∧ last events = Some (Printed "Goodbye!")
   | InputExhausted =>
       (∀ v, v ∈ inputs → lower v ≠ "exit")
       ∧ length (filter is_prompt events) = S (length inputs)
   | StillWorking =>
       ∃ before user_input after,
         inputs = before ++ user_input :: after
         ∧ (∀ v, v ∈ before → lower v ≠ "exit")
         ∧ lower user_input ≠ "exit"
         ∧ (chat_turns self fuel before w).2 = InputExhausted
         ∧ snd (_plan_and_execute self user_input fuel
                  (chat_turns self fuel before w).1.2) = None
   end)
  ∧ (∀ user_input rest r w',
       lower user_input ≠ "exit" →
       _plan_and_execute self user_input fuel w = (w', Some r) →
       chat_turns self fuel (user_input :: rest) w
       = (prompt_event :: planning_event
          :: present_outcome self r ++ (chat_turns self fuel rest w').1.1,
          (chat_turns self fuel rest w').1.2,
          (chat_turns self fuel rest w').2)).
Proof.
  split.
  - revert w. induction inputs as [|u rest IH]; intros w.
    { simpl. split; [|done]. intros v Hv. by apply elem_of_nil in Hv. }
    cbn [chat_turns].
    destruct (String.eqb (lower u) "exit") eqn:Hu.
    { apply String.eqb_eq in Hu. simpl. exists [], u, rest.
      split; [done|]. split; [done|]. split; [|done].
      intros v Hv. by apply elem_of_nil in Hv. }
    pose proof Hu as Hne. apply String.eqb_neq in Hne.
    destruct (_plan_and_execute self u fuel w) as [w' [r|]] eqn:Hturn.
    + specialize (IH w').
      assert (Hprefix : ∀ before,
                chat_turns self fuel (u :: before) w
                = (prompt_event :: planning_event
                   :: present_outcome self r ++ (chat_turns self fuel before w').1.1,
                   (chat_turns self fuel before w').1.2,
                   (chat_turns self fuel before w').2)).
      { intros before. cbn [chat_turns]. rewrite Hu, Hturn.
        by destruct (chat_turns self fuel before w') as [[? ?] ?]. }
      destruct (chat_turns self fuel rest w') as [[events w''] ending].
      cbn [fst snd] in *.
      destruct (present_outcome_no_prompt self r) as [Hnone Hsome].
      assert (Hcount : length (filter is_prompt
                                 (prompt_event :: planning_event
                                  :: present_outcome self r ++ events))
                       = S (length (filter is_prompt events))).
      { rewrite filter_cons_True by done. rewrite filter_cons_False by (by intros ?).
        by rewrite filter_app, Hnone. }
      destruct ending.
      * destruct IH as (before & x & after & -> & Hx & Hbefore & Hprompts & Hlast).
        exists (u :: before), x, after.
        split; [done|]. split; [done|]. split.
        { intros v [->|Hv]%elem_of_cons; auto. }
        split; [by rewrite Hcount, Hprompts|].
        destruct events as [|ev events]; [discriminate|].
        change (prompt_event :: planning_event
                :: present_outcome self r ++ ev :: events)
          with ((prompt_event :: planning_event :: present_outcome self r)
                ++ ev :: events).
        rewrite last_app, Hlast. done.
      * destruct IH as [Hrest Hprompts]. split.
        { intros v [->|Hv]%elem_of_cons; auto. }
        by rewrite Hcount, Hprompts.
      * destruct IH as (before & x & after & -> & Hbefore & Hx & Hread & Hhang).
        exists (u :: before), x, after.
        split; [done|]. split.
        { intros v [->|Hv]%elem_of_cons; auto. }
        split; [done|]. rewrite (Hprefix before). by split.
    + simpl. exists [], u, rest. split; [done|]. split.
      { intros v Hv. by apply elem_of_nil in Hv. }
      split; [done|]. split; [done|]. simpl. by rewrite Hturn.
  - intros u rest r w' Hne Hturn. cbn [chat_turns].
    apply String.eqb_neq in Hne. rewrite Hne, Hturn.
    by destruct (chat_turns self fuel rest w') as [[? ?] ?].
Qed.

Lemma session_ends_only_on_exit_witness :
  chat_turns reviewer_chat 5 ["review my code"; "exit"] new_world
  = ([prompt_event; planning_event;
      PrintedError (KeyError "reviewer");
      Printed "Please try again or type 'exit' to quit.";
      prompt_event; Printed "Goodbye!"],
     record_planning "review my code" fresh_project_state new_world,
     SaidGoodbye).
Proof.
  refine (proj2 (session_ends_only_on_exit reviewer_chat 5
                   ["review my code"; "exit"] new_world)
            "review my code" ["exit"] (inl (KeyError "reviewer"))
            (record_planning "review my code" fresh_project_state new_world)
            _ eq_refl).
  discriminate.
Defined.

(** X11: what follows the first exit line is never read: the session is the same
    whatever lines come after it. *)
Theorem nothing_is_read_after_exit
    (self : DevelopmentChat) (fuel : nat) (before : list string)
    (user_input : string) (after : list string) (w : World) :
  lower user_input = "exit" →
  chat_loop self fuel (before ++ user_input :: after) w
  = chat_loop self fuel (before ++ [user_input]) w.
Proof.
  intros Hexit. unfold chat_loop.
  assert (Hturns : ∀ w, chat_turns self fuel (before ++ user_input :: after) w
                        = chat_turns self fuel (before ++ [user_input]) w).
  { clear w. induction before as [|u before IH]; intros w.
    - simpl. by rewrite Hexit.
    - cbn [app chat_turns]. destruct (String.eqb (lower u) "exit"); [done|].
      destruct (_plan_and_execute self u fuel w) as [w' [r|]]; [|done].
      by rewrite IH. }
  by rewrite Hturns.
Qed.

Lemma nothing_is_read_after_exit_witness :
  chat_loop coder_chat 6 (["write add"] ++ "Exit" :: ["write more"; "exit"]) new_world
  = chat_loop coder_chat 6 (["write add"] ++ ["Exit"]) new_world.
Proof.
  exact (nothing_is_read_after_exit coder_chat 6 ["write add"] "Exit"
           ["write more"; "exit"] new_world eq_refl).
Defined.

Lemma chat_turns_planned (self : DevelopmentChat) (fuel : nat)
    (inputs : list string) :
  ∀ w, ∃ calls,
    planning_log (chat_turns self fuel inputs w).1.2 = planning_log w ++ calls
    ∧ ∀ t s, (t, s) ∈ calls →
             t ∈ inputs ∧ lower t ≠ "exit" ∧ status s = "in_progress".
Proof.
  induction inputs as [|u rest IH]; intros w.
  - exists []. simpl. split; [by rewrite app_nil_r|].
    intros t s Hin. by apply elem_of_nil in Hin.
  - cbn [chat_turns]. destruct (String.eqb (lower u) "exit") eqn:Hu.
    + exists []. simpl. split; [by rewrite app_nil_r|].
      intros t s Hin. by apply elem_of_nil in Hin.
    + apply String.eqb_neq in Hu.
      destruct (task_planning_calls self u fuel w)
        as (calls1 & Hlog1 & Hcalls1).
      assert (Hmine : ∀ t s, (t, s) ∈ calls1 →
                 t ∈ u :: rest ∧ lower t ≠ "exit" ∧ status s = "in_progress").
      { intros t s Hin. destruct (Hcalls1 t s Hin) as [-> Hs].
        split; [apply list_elem_of_here|done]. }
      destruct (_plan_and_execute self u fuel w) as [w' [r|]]; cbn [fst] in Hlog1.
      * destruct (IH w') as (calls2 & Hlog2 & Hcalls2).
        destruct (chat_turns self fuel rest w') as [[events w''] ending].
        cbn [fst snd] in *. exists (calls1 ++ calls2).
        split; [by rewrite Hlog2, Hlog1, app_assoc|].
        intros t s [Hin|Hin]%elem_of_app; [by apply Hmine|].
        destruct (Hcalls2 t s Hin) as (Ht & Hl & Hs).
        split; [by apply list_elem_of_further|done].
      * exists calls1. by split.
Qed.

(** X12: the planner is only ever asked about lines the user entered that are not
    an exit: every planning call of a session has for task one of the input
    lines, with a lower-case form other than ['exit'], and is given a state in
    progress. *)
Theorem exit_is_never_planned
    (self : DevelopmentChat) (fuel : nat) (inputs : list string) (w : World) :
  let w' := (chat_loop self fuel inputs w).1.2 in
  ∀ t s, (t, s) ∈ planned_since w w' →
         t ∈ inputs ∧ lower t ≠ "exit" ∧ status s = "in_progress".
Proof.
  intros w'. subst w'. unfold chat_loop.
  destruct (chat_turns_planned self fuel inputs w) as (calls & Hlog & Hcalls).
  destruct (chat_turns self fuel inputs w) as [[events w'] ending].
  cbn [fst snd] in *. unfold planned_since. by rewrite Hlog, drop_app_length.
Qed.

(** * Properties of the debugging agent *)

Lemma list_ascii_of_string_app (s1 s2 : string) :
  list_ascii_of_string (s1 +:+ s2)
  = list_ascii_of_string s1 ++ list_ascii_of_string s2.
Proof.
  induction s1 as [|c s1 IH]; [done|].
  change (c :: list_ascii_of_string (s1 +:+ s2)
          = c :: (list_ascii_of_string s1 ++ list_ascii_of_string s2)).
  by rewrite IH.
Qed.

Lemma list_ascii_of_string_inj (s1 s2 : string) :
  list_ascii_of_string s1 = list_ascii_of_string s2 → s1 = s2.
Proof.
  intros Heq. rewrite <- (string_of_list_ascii_of_string s1).
  rewrite <- (string_of_list_ascii_of_string s2). by rewrite Heq.
Qed.

Lemma string_app_inv_tail (s1 s2 tail : string) :
  s1 +:+ tail = s2 +:+ tail → s1 = s2.
Proof.
  intros Heq. apply list_ascii_of_string_inj.
  apply (f_equal list_ascii_of_string) in Heq.
  rewrite !list_ascii_of_string_app in Heq. by apply app_inv_tail in Heq.
Qed.

Lemma string_app_inv_head (head s1 s2 : string) :
  head +:+ s1 = head +:+ s2 → s1 = s2.
Proof. apply String.app_inj. Qed.

(** X15: [analyze_error] cannot tell a missing stack trace from an empty one, nor
    from the text 'Not provided': the user message it sends for a stack
    trace is the one it sends without any exactly when the stack trace is
    empty or is that text, and then the two calls are the same call. *)
Theorem missing_stack_trace_indistinguishable
    (self : Debugger.DebuggingAgent) (error_message : string)
    (stack_trace : string) :
  (Debugger.analyze_error_user_message error_message (Some stack_trace)
   = Debugger.analyze_error_user_message error_message None
   ↔ stack_trace = "" ∨ stack_trace = "Not provided")
  ∧ Debugger.analyze_error self error_message (Some "")
    = Debugger.analyze_error self error_message None
  ∧ Debugger.analyze_error self error_message (Some "Not provided")
    = Debugger.analyze_error self error_message None.
Proof.
  split; [|done]. split.
  - unfold Debugger.analyze_error_user_message. intros Heq.
    do 5 apply string_app_inv_head in Heq.
    apply string_app_inv_tail in Heq.
    destruct stack_trace as [|c t]; [by left|right; exact Heq].
  - by intros [-> | ->].
Qed.

Lemma join_cons (sep item : string) (rest : list string) :
  rest ≠ [] → join sep (item :: rest) = item +:+ sep +:+ join sep rest.
Proof. by destruct rest. Qed.

Lemma join_app (sep : string) (l1 l2 : list string) :
  l1 ≠ [] → l2 ≠ [] → join sep (l1 ++ l2) = join sep l1 +:+ sep +:+ join sep l2.
Proof.
  intros H1 H2. induction l1 as [|a l1 IH]; [done|].
  destruct l1 as [|b l1].
  - simpl. by apply join_cons.
  - change ((a :: b :: l1) ++ l2) with (a :: ((b :: l1) ++ l2)).
    rewrite join_cons by done. rewrite IH by done.
    rewrite (join_cons sep a (b :: l1)) by done.
    by rewrite !string_app_assoc.
Qed.

Lemma join_split_item (l1 l2 : list string) (a b : string) :
  join ", " (l1 ++ (a +:+ ", " +:+ b) :: l2) = join ", " (l1 ++ a :: b :: l2).
Proof.
  induction l1 as [|x l1 IH].
  - simpl. destruct l2 as [|y l2]; [done|]. by rewrite !string_app_assoc.
  - change ((x :: l1) ++ ?t) with (x :: (l1 ++ t)).
    rewrite !join_cons by (by destruct l1). by rewrite IH.
Qed.

(** X16: [suggest_fixes] joins the issues with ', ': without issues the line of
    reported issues is left empty, and an issue that itself contains ', ' is
    sent exactly as the two issues on either side of it would be. *)
Theorem issues_are_joined_with_commas
    (self : Debugger.DebuggingAgent) (code : string)
    (before after : list string) (a b : string) :
  Debugger.suggest_fixes self code (before ++ (a +:+ ", " +:+ b) :: after)
  = Debugger.suggest_fixes self code (before ++ a :: b :: after)
  ∧ Debugger.suggest_fixes_user_message code []
    = "Code: " +:+ code +:+ nl +:+ indent +:+ "Reported Issues: "
      +:+ nl +:+ indent +:+ nl +:+ indent +:+ "Please suggest fixes."
  ∧ (before ≠ [] → after ≠ [] →
     join ", " (before ++ after) = join ", " before +:+ ", " +:+ join ", " after).
Proof.
  split; [|split].
  - unfold Debugger.suggest_fixes, Debugger.suggest_fixes_user_message.
    by rewrite join_split_item.
  - done.
  - apply join_app.
Qed.

Lemma issues_are_joined_with_commas_witness :
  join ", " (["Index out of bounds error"] ++ ["No input validation"])
  = "Index out of bounds error, No input validation".
Proof.
  apply (proj2 (proj2 (issues_are_joined_with_commas
                         {| Debugger.model_client := echo_client |} ""
                         ["Index out of bounds error"] ["No input validation"]
                         "" ""))); discriminate.
Defined.

(** * Further properties of the planning loop *)

(** X13: the dictionary [_plan_and_execute] returns is the state its last
    planning call was given, with the status set to ['completed'] and nothing
    else changed: the steps and the next phase of a plan that reports
    completion are ignored. *)
Theorem returned_state_is_last_planned_state
    (self : DevelopmentChat) (task : string) (fuel : nat) (w w' : World)
    (st : ProjectState) :
  _plan_and_execute self task fuel w = (w', Some (inr st)) →
  ∃ s p,
    last (planning_log w') = Some (task, s)
    ∧ plan_next_steps (planner self) task s (length (planning_log w') - 1) = inr p
    ∧ Plan.is_complete p = true
    ∧ st = set_status "completed" s.
Proof.
  unfold _plan_and_execute.
  pose proof (reachable_run self task w fuel _ (reachable_entry self task w))
    as Hreach.
  revert Hreach. generalize (run self task fuel (entry w)). intros cf Hreach Hret.
  destruct (cfg_control cf) as [| | | |e] eqn:Hctl; try discriminate.
  injection Hret as <- <-.
  destruct Hreach as [|c c' Hc Hstep]; [discriminate Hctl|].
  pose proof (reachable_status _ _ _ _ Hc) as Hstatus.
  destruct c as [st0 w0 ctl]. unfold status_matches_control, step in *.
  cbn [cfg_state cfg_world cfg_control] in *.
  destruct ctl as [|p [|s rest]|p| |e]; try discriminate.
  - rewrite Hstatus in Hstep. simpl in Hstep.
    destruct (plan_next_steps (planner self) task st0 (length (planning_log w0)))
      as [e|p] eqn:Hp.
    { injection Hstep as <-. discriminate Hctl. }
    destruct (Plan.is_complete p) eqn:Hcomplete; injection Hstep as <-;
      [|discriminate Hctl].
    exists st0, p. simpl. rewrite last_snoc, length_app. simpl.
    replace (length (planning_log w0) + 1 - 1) with (length (planning_log w0)) by lia.
    done.
  - injection Hstep as <-. discriminate Hctl.
  - destruct (_execute_agent_task _ _ _ _ _) as [w1 [e|r]];
      [|destruct (success r)]; injection Hstep as <-; discriminate Hctl.
  - injection Hstep as <-. discriminate Hctl.
Qed.

Lemma returned_state_is_last_planned_state_witness :
  ∃ s p,
    last (planning_log
            (fst (_plan_and_execute coder_chat "write a function that adds two numbers"
                    6 new_world)))
    = Some ("write a function that adds two numbers", s)
    ∧ plan_next_steps (planner coder_chat) "write a function that adds two numbers" s
        (length (planning_log
                   (fst (_plan_and_execute coder_chat
                           "write a function that adds two numbers" 6 new_world))) - 1)
      = inr p
    ∧ Plan.is_complete p = true
    ∧ length (history s) = 1.
Proof.
  destruct (returned_state_is_last_planned_state coder_chat
              "write a function that adds two numbers" 6 new_world _ _ eq_refl)
    as (s & p & Hlast & Hp & Hcomplete & Hst).
  exists s, p. split; [exact Hlast|]. split; [exact Hp|]. split; [exact Hcomplete|].
  apply (f_equal (λ st, length (history st))) in Hst. simpl in Hst.
  by rewrite <- Hst.
Defined.

Lemma step_phase_invariant (self : DevelopmentChat) (task : string) (w0 : World)
    (c c' : Config) :
  phase_invariant self w0 c → step self task c = Some c' →
  phase_invariant self w0 c'.
Proof.
  destruct c as [st w ctl]. unfold phase_invariant, step.
  cbn [cfg_state cfg_world cfg_control].
  intros (calls & Hlog & Hchain & Hctl) Hstep.
  destruct ctl as [|p [|s rest]|p| |e]; try discriminate.
  - destruct (String.eqb (status st) "in_progress");
      [|injection Hstep as <-; by exists calls].
    assert (Hidx : length (planning_log w) = length (planning_log w0) + length calls).
    { by rewrite Hlog, length_app. }
    assert (Hchain' : phases_follow_plans (planner self) (length (planning_log w0))
                        (calls ++ [(task, st)])).
    { destruct Hchain as [Hfirst Hnext]. split.
      - intros t s H0. destruct calls as [|[t0 s0] calls].
        + injection H0 as <- <-. by destruct Hctl as [[_ ?]|(p & (? & ? & [=] & _) & _)].
        + apply (Hfirst t s). exact H0.
      - intros i t s t' s' Hi HSi.
        destruct (decide (S i < length calls)) as [Hlt|Hge].
        + rewrite lookup_app_l in Hi by lia. rewrite lookup_app_l in HSi by lia.
          by eapply Hnext.
        + assert (S i = length calls) as Hlen.
          { apply lookup_lt_Some in HSi. rewrite length_app in HSi. simpl in HSi. lia. }
          rewrite lookup_app_l in Hi by lia.
          rewrite Hlen, list_lookup_middle in HSi by done. injection HSi as <- <-.
          destruct Hctl as [[-> _]|(p & (t0 & s0 & Hlast & Hp & Hc) & Hphase)];
            [discriminate Hlen|].
          rewrite last_lookup in Hlast.
          replace (Init.Nat.pred (length calls)) with i in Hlast by lia.
          rewrite Hi in Hlast. injection Hlast as <- <-.
          replace (length calls - 1) with i in Hp by lia. eauto. }
    destruct (plan_next_steps (planner self) task st (length (planning_log w)))
      as [e|p] eqn:Hp.
    + injection Hstep as <-. exists (calls ++ [(task, st)]). simpl.
      split; [by rewrite Hlog, <- app_assoc|]. by split.
    + destruct (Plan.is_complete p) eqn:Hcomplete; injection Hstep as <-;
        exists (calls ++ [(task, st)]); simpl;
        (split; [by rewrite Hlog, <- app_assoc|]); (split; [done|]); [done|].
      exists task, st. rewrite last_snoc, length_app. simpl.
      replace (length calls + 1 - 1) with (length calls) by lia.
      by rewrite <- Hidx.
  - injection Hstep as <-. by exists calls.
  - pose proof (execute_agent_task_planning_log self (Step.agent s) (Step.task s)
                  (context st) w) as Hsame.
    destruct (_execute_agent_task _ _ _ _ _) as [w1 [e|r]]; simpl in Hsame;
      [|destruct (success r)]; injection Hstep as <-; exists calls; simpl;
      (split; [congruence|]); by split.
  - injection Hstep as <-. exists calls. simpl. split; [done|]. split; [done|].
    right. by exists p.
Qed.

Lemma reachable_phase_invariant (self : DevelopmentChat) (task : string)
    (w0 : World) (c : Config) :
  reachable self task w0 c → phase_invariant self w0 c.
Proof.
  induction 1 as [|c c' _ IH Hstep]; [|by eapply step_phase_invariant].
  exists []. simpl. split; [by rewrite app_nil_r|]. split; [|by left].
  split; [by intros t s|by intros i t s t' s'].
Qed.

(** X14: the planner sees the phase it chose: the first planning call of
    [_plan_and_execute] is made in the phase ['planning'], and every later
    one in the [next_phase] of the plan returned by the call before it, which
    was not complete. *)
Theorem planner_sees_the_phase_it_chose
    (self : DevelopmentChat) (task : string) (fuel : nat) (w : World) :
  phases_follow_plans (planner self) (length (planning_log w))
    (planned_since w (fst (_plan_and_execute self task fuel w))).
Proof.
  rewrite plan_and_execute_world.
  destruct (reachable_phase_invariant self task w _
              (reachable_run self task w fuel _ (reachable_entry self task w)))
    as (calls & Hlog & Hchain & _).
  unfold planned_since. by rewrite Hlog, drop_app_length.
Qed.

Lemma exit_is_never_planned_witness :
  "write add" ∈ ["write add"; "exit"; "never read"]
  ∧ lower "write add" ≠ "exit"
  ∧ status fresh_project_state = "in_progress".
Proof.
  apply (exit_is_never_planned coder_chat 6 ["write add"; "exit"; "never read"]
           new_world "write add" fresh_project_state).
  vm_compute. apply list_elem_of_here.
Defined.

(** * Termination of the planning loop, the failed lookup apart *)






